(** * bolt-db: the batched-write layer (batching.go) and the store adapter

    A shallow embedding of [BoltBatch] (Add, execOpsByBucket, Execute,
    ExecuteConcurrent) and of [BoltDatabase.Get/Set/Delete], together with
    the properties the specification states about them.

    Conventions.
    - A Go [[]byte] is a [list byte]; a Go [string] is a [string]; the
      conversions [string(bs)] and [[]byte(s)] are [string_of_list_byte]
      and [list_byte_of_string].
    - A Go [error] is an [option error]: [None] is [nil].
    - A [*[]byte] that may be [nil] is an [option bytes].
    - The Go maps are [gmap]s; the order in which [range] visits a map is
      not fixed by the language, so the loops over [b.ops] take the visiting
      order as an argument, constrained to be a permutation of the entries.
    - The database is open for the whole duration of a call. *)

From Stdlib Require Import ZArith Lia Strings.Byte.
From stdpp Require Import gmap strings list fin_maps relations sorting.

(** ** Byte strings *)

Abbreviation bytes := (list byte).

#[global] Instance byte_eq_decision : EqDecision byte := Byte.byte_eq_dec.
#[global] Instance byte_countable : Countable byte :=
  inj_countable Byte.to_N Byte.of_N Byte.of_to_N.

(** [[]byte(s)] and [string(bs)]. *)
Definition bytes_of (s : string) : bytes := String.list_byte_of_string s.
Definition string_of (bs : bytes) : string := String.string_of_list_byte bs.

(** [len(x)] as a Go [int], for a slice and for a map. *)
Definition len {A} (l : list A) : Z := Z.of_nat (length l).
Definition len_map {A} (m : gmap string A) : Z := Z.of_nat (size m).

(** ** Errors

    The first three are the [errors.New] values of this repository, the rest
    are the argument errors of the bolt v1.3.1 calls the code makes. *)
Inductive error : Type :=
  | ErrMaxSequentialOperations   (* "max sequential operations reached" *)
  | ErrValueIsNil                (* "value is nil" *)
  | ErrBucketNotFound            (* "bucket not found" *)
  | ErrBucketNameRequired        (* bolt.ErrBucketNameRequired *)
  | ErrKeyRequired               (* bolt.ErrKeyRequired *)
  | ErrKeyTooLarge               (* bolt.ErrKeyTooLarge *)
  | ErrValueTooLarge.            (* bolt.ErrValueTooLarge *)

#[global] Instance error_eq_decision : EqDecision error.
Proof. solve_decision. Defined.

(** ** The store: github.com/boltdb/bolt v1.3.1, as far as the code uses it

    The library is an external dependency (pinned by go.mod); only the calls
    made by this repository are modelled, on a database whose top-level
    entries are buckets of plain key/value pairs (the code never creates a
    nested bucket).  A transaction fails through the error its function
    returns, and through nothing else. *)
Module bolt.

Definition MaxKeySize : Z := 32768.
Definition MaxValueSize : Z := 2147483646.   (* (1 << 31) - 2 *)

(** The content of one bucket, and the content of the database seen by a
    transaction. *)
Abbreviation Bucket := (gmap bytes bytes).
Abbreviation Tx := (gmap bytes (gmap bytes bytes)).
Abbreviation DB := (gmap bytes (gmap bytes bytes)).

(** [tx.Bucket(name)]: [nil] when there is no such bucket. *)
Definition Tx_Bucket (tx : Tx) (name : bytes) : option Bucket := tx !! name.

(** [tx.CreateBucketIfNotExists(name)]: the handle to the bucket is its
    name; the transaction afterwards has the bucket. *)
Definition CreateBucketIfNotExists (tx : Tx) (name : bytes)
  : Tx * option error :=
  if (len name =? 0)%Z then (tx, Some ErrBucketNameRequired)
  else match tx !! name with
       | Some _ => (tx, None)
       | None => (<[name := ∅]> tx, None)
       end.

(** [bucket.Put(key, value)] on the bucket [name] of [tx]. *)
Definition Bucket_Put (tx : Tx) (name key value : bytes) : Tx * option error :=
  if (len key =? 0)%Z then (tx, Some ErrKeyRequired)
  else if (len key >? MaxKeySize)%Z then (tx, Some ErrKeyTooLarge)
  else if (len value >? MaxValueSize)%Z then (tx, Some ErrValueTooLarge)
  else (<[name := <[key := value]> (default ∅ (tx !! name))]> tx, None).

(** [bucket.Delete(key)]: deleting an absent key is not an error. *)
Definition Bucket_Delete (tx : Tx) (name key : bytes) : Tx * option error :=
  (<[name := delete key (default ∅ (tx !! name))]> tx, None).

(** [bucket.Get(key)]: [nil] when the key is absent. *)
Definition Bucket_Get (bucket : Bucket) (key : bytes) : option bytes :=
  bucket !! key.

(** [db.Batch(fn)] and [db.Update(fn)]: [fn] runs in a read-write
    transaction that is committed when [fn] returns [nil] and rolled back
    when it returns an error, which is then the result of the call. *)
Definition Batch (db : DB) (fn : Tx → Tx * option error) : DB * option error :=
  match fn db with
  | (tx', None) => (tx', None)
  | (_, Some err) => (db, Some err)
  end.

(** [db.View(fn)]: [fn] runs in a read-only transaction; [fn] hands its
    findings to the caller through a captured variable, here the first
    component of its result. *)
Definition View {A : Type} (db : DB) (fn : Tx → A * option error) : A * option error :=
  fn db.

(** A bucket keeps its keys in byte order ([bytes.Compare]), and that is
    the order in which a cursor visits them. *)
Fixpoint bytes_leb (a b : bytes) : bool :=
  match a, b with
  | [], _ => true
  | _ :: _, [] => false
  | x :: a', y :: b' =>
      if (Byte.to_N x <? Byte.to_N y)%N then true
      else if (Byte.to_N y <? Byte.to_N x)%N then false
      else bytes_leb a' b'
  end.

Definition key_le {A : Type} (p q : bytes * A) : Prop := bytes_leb p.1 q.1 = true.

#[global] Instance key_le_dec {A : Type} (p q : bytes * A) : Decision (key_le p q).
Proof. unfold key_le. apply _. Defined.

Definition cursor_order {A : Type} (m : gmap bytes A) : list (bytes * A) :=
  merge_sort key_le (map_to_list m).

(** [ForEach(fn)]: [fn] is called for every pair, in cursor order; when it
    returns an error the iteration stops and the error is returned.  [S] is
    what [fn] has captured and may write to. *)
Fixpoint forEach_loop {A S : Type} (fn : S → bytes → A → S * option error) (st : S)
    (l : list (bytes * A)) : S * option error :=
  match l with
  | [] => (st, None)
  | (k, v) :: rest =>
      match fn st k v with
      | (st', Some err) => (st', Some err)
      | (st', None) => forEach_loop fn st' rest
      end
  end.

(** [bucket.ForEach(fn)], over the pairs of the bucket. *)
Definition Bucket_ForEach {S : Type} (bucket : Bucket)
    (fn : S → bytes → bytes → S * option error) (st : S) : S * option error :=
  forEach_loop fn st (cursor_order bucket).

(** [tx.ForEach(fn)], over the top-level buckets. *)
Definition Tx_ForEach {S : Type} (tx : Tx)
    (fn : S → bytes → Bucket → S * option error) (st : S) : S * option error :=
  forEach_loop fn st (cursor_order tx).

End bolt.

(** ** batching.go *)

(** [type WriteOp = string], with its two named constants. *)
Abbreviation WriteOp := string.
Definition OpSet : WriteOp := "set".
Definition OpDelete : WriteOp := "delete".

Definition MAX_CONCURRENT_OPERATIONS : Z := 10.
Definition MAX_SEQUENTIAL_OPERATIONS : Z := 5000.

Record WriteOperation : Type := mkWriteOperation {
  Bucket : bytes;
  Key : bytes;
  Value : option bytes;
  Op : WriteOp;
}.

(** [BoltBatch]: the mutex carries no data, and [boltdb] is the database the
    execution functions are applied to. *)
Record BoltBatch : Type := mkBoltBatch {
  ops : gmap string (list WriteOperation);
}.

Definition NewBoltBatch : BoltBatch := {| ops := ∅ |}.

(** [b.ops[k]] on a missing key is the nil slice. *)
Definition ops_at (b : BoltBatch) (k : string) : list WriteOperation :=
  default [] (ops b !! k).

Definition Add (b : BoltBatch) (op : WriteOperation) : BoltBatch * option error :=
  if (len_map (ops b) >=? MAX_SEQUENTIAL_OPERATIONS)%Z
  then (b, Some ErrMaxSequentialOperations)
  else ({| ops := <[string_of (Bucket op) := ops_at b (string_of (Bucket op)) ++ [op]]> (ops b) |},
        None).

(** The [for _, op := range ops { switch op.Op { ... } }] of
    [execOpsByBucket]: both cases of the switch return, an operation whose
    kind is neither constant falls through to the next iteration. *)
Fixpoint execOps (tx : bolt.Tx) (boltBucket : bytes) (l : list WriteOperation)
  : bolt.Tx * option error :=
  match l with
  | [] => (tx, None)
  | op :: rest =>
      if decide (Op op = OpSet) then
        match Value op with
        | None => (tx, Some ErrValueIsNil)
        | Some v => bolt.Bucket_Put tx boltBucket (Key op) v
        end
      else if decide (Op op = OpDelete) then
        bolt.Bucket_Delete tx boltBucket (Key op)
      else execOps tx boltBucket rest
  end.

Definition execOpsByBucket (tx : bolt.Tx) (bucket : string) (l : list WriteOperation)
  : bolt.Tx * option error :=
  let bucketByte := bytes_of bucket in
  match bolt.CreateBucketIfNotExists tx bucketByte with
  | (tx', Some err) => (tx', Some err)
  | (tx', None) => execOps tx' bucketByte l
  end.

(** One partition's transaction: [b.boltdb.db.Batch(func(tx) error { return
    b.execOpsByBucket(tx, bucket, ops) })]. *)
Definition bucketTx (db : bolt.DB) (bucket : string) (l : list WriteOperation)
  : bolt.DB * option error :=
  bolt.Batch db (λ tx, execOpsByBucket tx bucket l).

(** The loop of [Execute] over [range b.ops], in the visiting order [order]. *)
Fixpoint Execute_loop (order : list (string * list WriteOperation)) (db : bolt.DB)
  : bolt.DB * option error :=
  match order with
  | [] => (db, None)
  | (bucket, l) :: rest =>
      match bucketTx db bucket l with
      | (db', Some err) => (db', Some err)
      | (db', None) => Execute_loop rest db'
      end
  end.

(** [order] is an order in which [range b.ops] may visit the map. *)
Definition range_order (b : BoltBatch) (order : list (string * list WriteOperation)) : Prop :=
  order ≡ₚ map_to_list (ops b).

(** [Execute]: the batch it leaves, the database it leaves, and its result. *)
Definition Execute (order : list (string * list WriteOperation)) (b : BoltBatch) (db : bolt.DB)
  : BoltBatch * bolt.DB * option error :=
  let '(db', err) := Execute_loop order db in (b, db', err).

(** ** The store adapter (BoltDatabase) *)

Definition Get (db : bolt.DB) (bucketName key : string) : option bytes * option error :=
  bolt.View db (λ tx,
    match bolt.Tx_Bucket tx (bytes_of bucketName) with
    | None => (None, None)
    | Some bucket => (bolt.Bucket_Get bucket (bytes_of key), None)
    end).

Definition Set_ (db : bolt.DB) (bucketName key : string) (value : bytes)
  : bolt.DB * option error :=
  bolt.Batch db (λ tx,
    match bolt.CreateBucketIfNotExists tx (bytes_of bucketName) with
    | (tx', Some err) => (tx', Some err)
    | (tx', None) => bolt.Bucket_Put tx' (bytes_of bucketName) (bytes_of key) value
    end).

Definition Delete (db : bolt.DB) (bucketName key : string) : bolt.DB * option error :=
  bolt.Batch db (λ tx,
    match bolt.Tx_Bucket tx (bytes_of bucketName) with
    | None => (tx, Some ErrBucketNotFound)
    | Some _ => bolt.Bucket_Delete tx (bytes_of bucketName) (bytes_of key)
    end).

(** ** ExecuteConcurrent

    One goroutine per partition, started through an [errgroup.Group]; the
    buffered channel [semaphore] is the admission gate.  The goroutines are
    modelled as a transition system: a step is one goroutine moving to its
    next program point.  Bolt serialises read-write transactions, so a
    partition's transaction is one step. *)

(** Where a goroutine stands. *)
Inductive pc : Type :=
  | Launched                      (* before [semaphore <- struct{}{}] *)
  | Holding                       (* slot held, before [db.Batch] *)
  | Returned (r : option error)   (* [db.Batch] returned [r], before the deferred [<-semaphore] *)
  | Released (r : option error)   (* slot given back, [r] not yet handed to the group *)
  | Finished.                     (* the group has taken [r] *)

Abbreviation task := (string * list WriteOperation * pc)%type.

Record conc : Type := mkConc {
  batch : BoltBatch;
  tasks : list task;
  slots : Z;                      (* len(semaphore) *)
  store : bolt.DB;
  group_err : option error;       (* the group's [err], written once *)
}.

(** [g.errOnce.Do(func() { g.err = err })], run for a non-nil [err] only. *)
Definition errOnce (g r : option error) : option error :=
  match r with
  | None => g
  | Some e => match g with None => Some e | Some e0 => Some e0 end
  end.

(** [cap(semaphore)]. *)
Definition semaphore_cap (b : BoltBatch) : Z :=
  Z.min MAX_CONCURRENT_OPERATIONS (len_map (ops b)).

Definition set_task (s : conc) (i : nat) (t : task) : list task := <[i := t]> (tasks s).

(** One step of one goroutine [i], for a channel of capacity [cap]:
    - [step_acquire]: the send [semaphore <- struct{}{}] goes through, which
      it does when the channel has room;
    - [step_batch]: the call of [db.Batch] with [execOpsByBucket] for the
      goroutine's own [bucket] and [ops];
    - [step_release]: the deferred [<-semaphore] goes through, which it
      does when the channel is not empty;
    - [step_report]: the function passed to [wg.Go] has returned and the
      group records its result. *)
Inductive step (cap : Z) : conc → conc → Prop :=
  | step_acquire s i k l :
      tasks s !! i = Some (k, l, Launched) →
      (slots s < cap)%Z →
      step cap s (mkConc (batch s) (set_task s i (k, l, Holding))
                         (slots s + 1) (store s) (group_err s))
  | step_batch s i k l :
      tasks s !! i = Some (k, l, Holding) →
      step cap s (mkConc (batch s) (set_task s i (k, l, Returned (bucketTx (store s) k l).2))
                         (slots s) (bucketTx (store s) k l).1 (group_err s))
  | step_release s i k l r :
      tasks s !! i = Some (k, l, Returned r) →
      (0 < slots s)%Z →
      step cap s (mkConc (batch s) (set_task s i (k, l, Released r))
                         (slots s - 1) (store s) (group_err s))
  | step_report s i k l r :
      tasks s !! i = Some (k, l, Released r) →
      step cap s (mkConc (batch s) (set_task s i (k, l, Finished))
                         (slots s) (store s) (errOnce (group_err s) r)).

(** After the [for bucket, ops := range b.ops] loop: one goroutine per
    partition. *)
Definition launch (b : BoltBatch) (order : list (string * list WriteOperation)) (db : bolt.DB) : conc :=
  mkConc b ((λ p, (p, Launched)) <$> order) 0 db None.

(** [wg.Wait()] returns once every goroutine has finished. *)
Definition all_finished (s : conc) : Prop := Forall (λ t : task, t.2 = Finished) (tasks s).

(** [ExecuteConcurrent] may end with batch, database and result [res]. *)
Definition ExecuteConcurrent (order : list (string * list WriteOperation)) (b : BoltBatch) (db : bolt.DB)
    (res : BoltBatch * bolt.DB * option error) : Prop :=
  ∃ s, rtc (step (semaphore_cap b)) (launch b order db) s ∧ all_finished s ∧
       res = (batch s, store s, group_err s).

(** A sum over the goroutines. *)
Definition weigh (w : pc → Z) (ts : list task) : Z :=
  foldr (λ t n, w t.2 + n)%Z 0%Z ts.

(** The number of goroutines that hold a slot: past the send on the channel
    and not yet past the deferred receive. *)
Definition holds_slot (p : pc) : Z :=
  match p with Holding | Returned _ => 1 | _ => 0 end.
Definition in_flight (ts : list task) : Z := weigh holds_slot ts.

(** The number of steps a goroutine has left, and all of them together. *)
Definition steps_left (p : pc) : Z :=
  match p with
  | Launched => 4 | Holding => 3 | Returned _ => 2 | Released _ => 1 | Finished => 0
  end.
Definition fuel (s : conc) : Z := weigh steps_left (tasks s).

(** Whether a goroutine's transaction has run, and the result it carries. *)
Definition ran (p : pc) : bool :=
  match p with Launched | Holding => false | _ => true end.
Definition result_of (p : pc) : option (option error) :=
  match p with Returned r | Released r => Some r | _ => None end.

(** What holds of every state [ExecuteConcurrent] can be in, for the batch
    [b], the visiting order [order] and the database [db] it started from. *)
Record conc_inv (b : BoltBatch) (order : list (string * list WriteOperation))
    (db : bolt.DB) (cap : Z) (s : conc) : Prop := mkConcInv {
  inv_batch : batch s = b;
  inv_tasks : (tasks s).*1 = order;
  inv_slots : slots s = in_flight (tasks s);
  inv_cap : (slots s ≤ cap)%Z;
  inv_own : ∀ i k l p, tasks s !! i = Some (k, l, p) →
      store s !! bytes_of k = (if ran p then (bucketTx db k l).1 else db) !! bytes_of k;
  inv_other : ∀ n, (∀ k l, (k, l) ∈ order → n ≠ bytes_of k) → store s !! n = db !! n;
  inv_result : ∀ i k l p r, tasks s !! i = Some (k, l, p) → result_of p = Some r →
      r = (bucketTx db k l).2;
  inv_err_some : ∀ e, group_err s = Some e →
      ∃ k l, (k, l) ∈ order ∧ (bucketTx db k l).2 = Some e;
  inv_err_none : group_err s = None →
      ∀ i k l, tasks s !! i = Some (k, l, Finished) → (bucketTx db k l).2 = None;
}.

(** ** What the specification asks of a partition's transaction *)

(** The replay as the specification words it: each Set overwrites its key,
    each Delete removes its key, one operation after the other in insertion
    order.  The replay the code performs is [execOps]. *)
Definition apply_op (content : bolt.Bucket) (op : WriteOperation) : bolt.Bucket :=
  if decide (Op op = OpSet) then
    match Value op with Some v => <[Key op := v]> content | None => content end
  else if decide (Op op = OpDelete) then delete (Key op) content
  else content.
Definition apply_ops (content : bolt.Bucket) (l : list WriteOperation) : bolt.Bucket :=
  foldl apply_op content l.

(** A valid operation: a Delete, or a Set that carries a value and whose key
    and value bolt accepts. *)
Definition valid_op (op : WriteOperation) : Prop :=
  (Op op = OpSet ∧
   ∃ v, Value op = Some v ∧ (0 < len (Key op) ≤ bolt.MaxKeySize)%Z ∧
        (len v ≤ bolt.MaxValueSize)%Z) ∨
  Op op = OpDelete.

(** The operations queued in a batch, over all partitions. *)
Definition total_ops (b : BoltBatch) : Z :=
  map_fold (λ _ l n, len l + n)%Z 0%Z (ops b).

(** Calling [Add] for each operation of a list, stopping at the first error. *)
Fixpoint AddAll (b : BoltBatch) (l : list WriteOperation) : BoltBatch * option error :=
  match l with
  | [] => (b, None)
  | op :: rest =>
      match Add b op with
      | (b', None) => AddAll b' rest
      | (b', Some err) => (b', Some err)
      end
  end.

(** ** Sample data *)
Definition opSet (b k v : string) : WriteOperation :=
  mkWriteOperation (bytes_of b) (bytes_of k) (Some (bytes_of v)) OpSet.
Definition opSetNil (b k : string) : WriteOperation :=
  mkWriteOperation (bytes_of b) (bytes_of k) None OpSet.
Definition opDelete (b k : string) : WriteOperation :=
  mkWriteOperation (bytes_of b) (bytes_of k) None OpDelete.

(** The scenario of the specification: two Sets of one key in "users" and a
    Delete in "orders", added in this order to a new batch. *)
Definition users_ops : list WriteOperation :=
  [opSet "users" "u1" "A"; opSet "users" "u1" "B"].
Definition orders_ops : list WriteOperation := [opDelete "orders" "o1"].
Definition scenario : BoltBatch := (AddAll NewBoltBatch (users_ops ++ orders_ops)).1.

(** A batch with three partitions, of which "a" starts with a Set that has
    no value; [map_to_list] lists the partitions as "c", "a", "b". *)
Definition faulty : BoltBatch :=
  (AddAll NewBoltBatch [opSetNil "a" "x"; opSet "b" "y" "2"; opSet "c" "z" "3"]).1.

(** Many operations for one partition. *)
Definition many_users : list WriteOperation :=
  replicate (Z.to_nat 5001) (opSet "users" "u1" "A").

(** A batch with 5000 partitions, of one operation each. *)
Definition bucket_no (i : nat) : bytes :=
  [default Byte.x00 (Byte.of_nat (i / 256)); default Byte.x00 (Byte.of_nat (i mod 256))].
Definition full : BoltBatch :=
  (AddAll NewBoltBatch
     ((λ i, mkWriteOperation (bucket_no i) (bytes_of "k") (Some (bytes_of "v")) OpSet)
        <$> seq 0 (Z.to_nat MAX_SEQUENTIAL_OPERATIONS))).1.

(** [ExecuteConcurrent] on [faulty], after the goroutine of "c" has taken a
    slot. *)
Definition one_holding : conc :=
  mkConc faulty
    (<[0%nat := ("c", [opSet "c" "z" "3"], Holding)]>
       (tasks (launch faulty (map_to_list (ops faulty)) ∅)))
    1 ∅ None.

(** ** Schedules

    A schedule names, step after step, the goroutine that moves next.
    [goroutine_step] is the step goroutine [i] takes when it is its turn:
    the send when the channel has room, the transaction, the deferred
    receive when the channel is not empty, the report to the group.  A
    goroutine that is blocked or has finished does not move, and neither
    does the state when there is no goroutine [i]. *)
Definition goroutine_step (cap : Z) (s : conc) (i : nat) : conc :=
  match tasks s !! i with
  | Some (k, l, Launched) =>
      if decide (slots s < cap)%Z
      then mkConc (batch s) (set_task s i (k, l, Holding))
                  (slots s + 1) (store s) (group_err s)
      else s
  | Some (k, l, Holding) =>
      mkConc (batch s) (set_task s i (k, l, Returned (bucketTx (store s) k l).2))
             (slots s) (bucketTx (store s) k l).1 (group_err s)
  | Some (k, l, Returned r) =>
      if decide (0 < slots s)%Z
      then mkConc (batch s) (set_task s i (k, l, Released r))
                  (slots s - 1) (store s) (group_err s)
      else s
  | Some (k, l, Released r) =>
      mkConc (batch s) (set_task s i (k, l, Finished))
             (slots s) (store s) (errOnce (group_err s) r)
  | Some (_, _, Finished) | None => s
  end.

Definition run_schedule (cap : Z) (s : conc) (schedule : list nat) : conc :=
  foldl (goroutine_step cap) s schedule.

(** [all_finished], as a test. *)
Definition finished (s : conc) : bool :=
  forallb (λ t : task, match t.2 with Finished => true | _ => false end) (tasks s).

(** A batch with three partitions of which two fail, each with an error of
    its own: "a" starts with a Set that has no value, "b" with a Set whose
    key is empty, which bolt refuses. *)
Definition two_faults : BoltBatch :=
  (AddAll NewBoltBatch [opSetNil "a" "x"; opSet "b" "" "2"; opSet "c" "z" "3"]).1.

(** Two runs of [ExecuteConcurrent] on [two_faults] from the empty database.
    In the first the goroutines are started for "a", "b", "c" and move in
    turns, so that all three hold a slot at once and "a" is first to report.
    In the second they are started for "c", "b", "a", and "b" has reported
    before the transactions of "c" and "a" have run. *)
Abbreviation run_abc :=
  (run_schedule (semaphore_cap two_faults)
    (launch two_faults
       [("a", [opSetNil "a" "x"]); ("b", [opSet "b" "" "2"]); ("c", [opSet "c" "z" "3"])] ∅)
    [0; 1; 2; 0; 1; 2; 0; 1; 2; 0; 1; 2]%nat).
Abbreviation run_cba :=
  (run_schedule (semaphore_cap two_faults)
    (launch two_faults
       [("c", [opSet "c" "z" "3"]); ("b", [opSet "b" "" "2"]); ("a", [opSetNil "a" "x"])] ∅)
    [1; 1; 0; 2; 1; 1; 0; 2; 2; 0; 2; 0]%nat).

(** A run of [ExecuteConcurrent] on the scenario of the specification: the
    goroutine of "orders" takes its slot first, the transaction of "users"
    runs first. *)
Abbreviation run_scenario :=
  (run_schedule (semaphore_cap scenario)
    (launch scenario [("users", users_ops); ("orders", orders_ops)] ∅)
    [1; 0; 0; 1; 1; 0; 1; 0]%nat).

(** A transaction body that reads and writes one bucket only. *)
Definition touches_only (name : bytes) (f : bolt.Tx → bolt.Tx * option error) : Prop :=
  ∀ tx,
    (∀ n, n ≠ name → (f tx).1 !! n = tx !! n) ∧
    (∀ tx2, tx !! name = tx2 !! name →
       (f tx).2 = (f tx2).2 ∧ (f tx).1 !! name = (f tx2).1 !! name).

(** ** The store adapter, continued: List, Buckets, ForEach *)

(** [List]: [result] is the Go map the closure fills; on an error of the
    view the function returns the nil map. *)
Definition List (db : bolt.DB) (bucketName : string)
  : option (gmap string bytes) * option error :=
  let result : gmap string bytes := ∅ in
  let '(result, err) :=
    bolt.View db (λ tx,
      match bolt.Tx_Bucket tx (bytes_of bucketName) with
      | None => (result, None)
      | Some bucket =>
          bolt.Bucket_ForEach bucket (λ result k v, (<[string_of k := v]> result, None)) result
      end) in
  match err with
  | Some err => (None, Some err)
  | None => (Some result, None)
  end.

(** [Buckets]: [None] is the nil slice the function returns on an error. *)
Definition Buckets (db : bolt.DB) : option (list string) :=
  let result : list string := [] in
  let '(result, err) :=
    bolt.View db (λ tx,
      bolt.Tx_ForEach tx (λ result name _, (result ++ [string_of name], None)) result) in
  match err with
  | Some _ => None
  | None => Some result
  end.

(** [ForEach]: [fn] with the variables it has captured, of type [S]. *)
Definition ForEach {S : Type} (db : bolt.DB) (bucketName : string)
    (fn : S → bytes → bytes → S * option error) (st : S) : S * option error :=
  bolt.View db (λ tx,
    match bolt.Tx_Bucket tx (bytes_of bucketName) with
    | None => (st, None)
    | Some bucket => bolt.Bucket_ForEach bucket (λ st k v, fn st k v) st
    end).

(** [db.NewBatch()]. *)
Definition NewBatch : BoltBatch := NewBoltBatch.

(** ** wrapper.go

    A [BoltDBWrapper] holds a pointer to the database and a bucket name; the
    database is the one its methods are applied to. *)
Record BoltDBWrapper : Type := NewBoltDBWrapper {
  bucketName : string;
}.

Definition BoltDBWrapper_NewBatch (w : BoltDBWrapper) : BoltBatch := NewBatch.
Definition BoltDBWrapper_Get (w : BoltDBWrapper) (db : bolt.DB) (key : string)
  : option bytes * option error := Get db (bucketName w) key.
Definition BoltDBWrapper_Set (w : BoltDBWrapper) (db : bolt.DB) (key : string) (value : bytes)
  : bolt.DB * option error := Set_ db (bucketName w) key value.
Definition BoltDBWrapper_Delete (w : BoltDBWrapper) (db : bolt.DB) (key : string)
  : bolt.DB * option error := Delete db (bucketName w) key.
Definition BoltDBWrapper_List (w : BoltDBWrapper) (db : bolt.DB)
  : option (gmap string bytes) * option error := List db (bucketName w).
Definition BoltDBWrapper_ForEach {S : Type} (w : BoltDBWrapper) (db : bolt.DB)
    (fn : S → bytes → bytes → S * option error) (st : S) : S * option error :=
  ForEach db (bucketName w) fn st.

(** ** The factory (BoltFactory)

    The factory maps names to [*BoltDatabase] pointers under a
    [sync.RWMutex].  What the file system and bolt answer is given by an
    environment: whether [bolt.Open] of a path returns a database, and what
    [Close] of an open database returns.  A call ends in one of three ways:
    it returns; it does not return, waiting on a mutex that nothing will
    release; or it panics on a nil pointer. *)
Module factory.

Inductive outcome (A : Type) : Type :=
  | Returns (a : A)
  | Blocks
  | Panics.
Arguments Returns {A} a.
Arguments Blocks {A}.
Arguments Panics {A}.

(** A non-nil [*BoltDatabase]. *)
Record BoltDatabase : Type := mkBoltDatabase {
  dbPath : string;
}.

Inductive ferror : Type :=
  | ErrCouldNotOpen (name : string) (db : BoltDatabase)  (* "could not open database %s: %v" *)
  | ErrDatabaseNotFound (name : string)                  (* "database %s not found" *)
  | ErrClose (path : string).                            (* an error of bolt's Close *)

Record Env : Type := mkEnv {
  open_ok : string → bool;
  close_err : BoltDatabase → option ferror;
}.

(** [lck] tells whether the mutex is held for writing; [databases] holds
    the pointers, [None] being [nil]. *)
Record BoltFactory : Type := mkBoltFactory {
  lck : bool;
  databases : gmap string (option BoltDatabase);
}.

(** [NewBoltDatabase]: [nil] when [bolt.Open] fails. *)
Definition NewBoltDatabase (env : Env) (dbPath : string) : option BoltDatabase :=
  if open_ok env dbPath then Some (mkBoltDatabase dbPath) else None.

(** [f.lck.Lock()], [f.lck.RLock()] and the deferred unlocks.  No reader
    holds the mutex between two calls, so a read lock leaves no trace. *)
Definition Lock (f : BoltFactory) : outcome BoltFactory :=
  if lck f then Blocks else Returns (mkBoltFactory true (databases f)).
Definition RLock (f : BoltFactory) : outcome BoltFactory :=
  if lck f then Blocks else Returns f.
Definition Unlock (f : BoltFactory) : BoltFactory := mkBoltFactory false (databases f).

(** [databases[name]] on a Go map of pointers: [nil] for a missing key. *)
Definition at_name (m : gmap string (option BoltDatabase)) (name : string)
  : option BoltDatabase := default None (m !! name).

Definition NewBoltFactory (env : Env) (name defaultPath : string)
  : option BoltFactory * option ferror :=
  let databases : gmap string (option BoltDatabase) :=
    <[name := NewBoltDatabase env defaultPath]> ∅ in
  match at_name databases name with              (* if err := databases[name]; err != nil *)
  | Some err => (None, Some (ErrCouldNotOpen name err))
  | None => (Some (mkBoltFactory false databases), None)
  end.

(** [GetDatabases], with the order [order] in which [range] visits the
    names. *)
Definition GetDatabases (order : list string) (f : BoltFactory)
  : outcome (list string * option ferror) :=
  match RLock f with
  | Returns _ => Returns (foldl (λ databases name, databases ++ [name]) [] order, None)
  | Blocks => Blocks
  | Panics => Panics
  end.

(** [order] is an order in which [range f.databases] may visit the names. *)
Definition range_names (f : BoltFactory) (order : list string) : Prop :=
  order ≡ₚ (map_to_list (databases f)).*1.

Definition Open (env : Env) (f : BoltFactory) (name path : string)
  : outcome (BoltFactory * option BoltDatabase * option ferror) :=
  match Lock f with
  | Returns f1 =>
      let databases' := <[name := NewBoltDatabase env path]> (databases f1) in
      Returns (Unlock (mkBoltFactory (lck f1) databases'), at_name databases' name, None)
  | Blocks => Blocks
  | Panics => Panics
  end.

Definition Close (env : Env) (f : BoltFactory) (name : string)
  : outcome (BoltFactory * option ferror) :=
  match Lock f with
  | Returns f1 =>
      match databases f1 !! name with
      | None => Returns (Unlock f1, Some (ErrDatabaseNotFound name))
      | Some None => Panics                       (* db.Close() on a nil pointer *)
      | Some (Some db) =>
          match close_err env db with
          | Some err => Returns (Unlock f1, Some err)
          | None =>
              Returns (Unlock (mkBoltFactory (lck f1) (delete name (databases f1))), None)
          end
      end
  | Blocks => Blocks
  | Panics => Panics
  end.

(** The loop of [CloseAll]; it runs with the mutex held, and calls the
    method [Close] on the factory as it is. *)
Fixpoint CloseAll_loop (env : Env) (order : list string) (f : BoltFactory)
  : outcome (BoltFactory * option ferror) :=
  match order with
  | [] => Returns (f, None)
  | name :: rest =>
      match Close env f name with
      | Returns (f', Some err) => Returns (f', Some err)
      | Returns (f', None) => CloseAll_loop env rest f'
      | Blocks => Blocks
      | Panics => Panics
      end
  end.

Definition CloseAll (env : Env) (order : list string) (f : BoltFactory)
  : outcome (BoltFactory * option ferror) :=
  match Lock f with
  | Returns f1 =>
      match CloseAll_loop env order f1 with
      | Returns (f2, err) => Returns (Unlock f2, err)
      | Blocks => Blocks
      | Panics => Panics
      end
  | Blocks => Blocks
  | Panics => Panics
  end.

Definition Get (f : BoltFactory) (name : string)
  : outcome (option BoltDatabase * option ferror) :=
  match RLock f with
  | Returns f1 =>
      match databases f1 !! name with
      | None => Returns (None, Some (ErrDatabaseNotFound name))
      | Some db => Returns (db, None)
      end
  | Blocks => Blocks
  | Panics => Panics
  end.

End factory.

(** An environment in which every path opens and every database closes,
    and a factory that holds one open database. *)
Definition sample_env : factory.Env := factory.mkEnv (λ _, true) (λ _, None).
Definition sample_factory : factory.BoltFactory :=
  factory.mkBoltFactory false {["users" := Some (factory.mkBoltDatabase "./users.db")]}.

(** * Properties *)

(** ** Byte strings *)

Lemma bytes_of_inj k1 k2 : bytes_of k1 = bytes_of k2 → k1 = k2.
Proof.
  unfold bytes_of. intros H.
  rewrite <- (String.string_of_list_byte_of_string k1),
          <- (String.string_of_list_byte_of_string k2).
  by rewrite H.
Qed.

Lemma bytes_of_string_of bs : bytes_of (string_of bs) = bs.
Proof. apply String.list_byte_of_string_of_list_byte. Qed.

(** ** The bolt calls touch the bucket they are given, and nothing else *)

Section locality.
Variable name : bytes.

Lemma CreateBucketIfNotExists_touches :
  touches_only name (λ tx, bolt.CreateBucketIfNotExists tx name).
Proof.
  intros tx. unfold bolt.CreateBucketIfNotExists. split.
  - intros n Hn. destruct (len name =? 0)%Z; [done|].
    destruct (tx !! name); [done|]. simpl. by rewrite lookup_insert_ne.
  - intros tx2 Heq. destruct (len name =? 0)%Z; [done|].
    rewrite <- Heq. destruct (tx !! name) eqn:E; simpl; [by rewrite <- Heq|].
    by rewrite !lookup_insert_eq.
Qed.

Lemma Bucket_Put_touches key value :
  touches_only name (λ tx, bolt.Bucket_Put tx name key value).
Proof.
  intros tx. unfold bolt.Bucket_Put. split.
  - intros n Hn. repeat case_match; simpl; try done. by rewrite lookup_insert_ne.
  - intros tx2 Heq. repeat case_match; simpl; try done.
    by rewrite !lookup_insert_eq, Heq.
Qed.

Lemma Bucket_Delete_touches key :
  touches_only name (λ tx, bolt.Bucket_Delete tx name key).
Proof.
  intros tx. unfold bolt.Bucket_Delete. split; simpl.
  - intros n Hn. by rewrite lookup_insert_ne.
  - intros tx2 Heq. by rewrite !lookup_insert_eq, Heq.
Qed.

Lemma touches_only_error e : touches_only name (λ tx, (tx, Some e)).
Proof. intros tx. by split. Qed.

Lemma touches_only_nil : touches_only name (λ tx, (tx, None)).
Proof. intros tx. by split. Qed.

(** [if err := f(tx); err != nil { return err }; return g(tx)]. *)
Lemma touches_only_seq f g :
  touches_only name f → touches_only name g →
  touches_only name (λ tx, match f tx with
                           | (tx', Some err) => (tx', Some err)
                           | (tx', None) => g tx'
                           end).
Proof.
  intros Hf Hg tx. split.
  - intros n Hn. destruct (Hf tx) as [Hf1 _]. specialize (Hf1 n Hn).
    destruct (f tx) as [tx' [err|]]; simpl in *; [done|].
    destruct (Hg tx') as [Hg1 _]. by rewrite Hg1.
  - intros tx2 Heq. destruct (Hf tx) as [_ Hf2]. destruct (Hf2 tx2 Heq) as [He Hl].
    destruct (f tx) as [tx' [err|]], (f tx2) as [tx2' [err2|]]; simpl in *; try done.
    destruct (Hg tx') as [_ Hg2]. by apply Hg2.
Qed.

Lemma execOps_touches l : touches_only name (λ tx, execOps tx name l).
Proof.
  induction l as [|op rest IH]; simpl.
  - apply touches_only_nil.
  - destruct (decide (Op op = OpSet)).
    + destruct (Value op); [apply Bucket_Put_touches | apply touches_only_error].
    + destruct (decide (Op op = OpDelete)); [apply Bucket_Delete_touches | apply IH].
Qed.
End locality.

Lemma execOpsByBucket_touches bucket l :
  touches_only (bytes_of bucket) (λ tx, execOpsByBucket tx bucket l).
Proof.
  unfold execOpsByBucket.
  apply (touches_only_seq _ (λ tx, bolt.CreateBucketIfNotExists tx (bytes_of bucket))
                            (λ tx, execOps tx (bytes_of bucket) l)).
  - apply CreateBucketIfNotExists_touches.
  - apply execOps_touches.
Qed.

(** A failed transaction leaves the database as it was. *)
Lemma Batch_rollback db fn e : (bolt.Batch db fn).2 = Some e → (bolt.Batch db fn).1 = db.
Proof. unfold bolt.Batch. by destruct (fn db) as [tx' [err|]]. Qed.

Lemma bucketTx_rollback db k l e : (bucketTx db k l).2 = Some e → (bucketTx db k l).1 = db.
Proof. apply Batch_rollback. Qed.

(** A partition's transaction leaves every other bucket alone. *)
Lemma bucketTx_frame db k l n : n ≠ bytes_of k → (bucketTx db k l).1 !! n = db !! n.
Proof.
  intros Hn. unfold bucketTx, bolt.Batch.
  destruct (execOpsByBucket_touches k l db) as [H _]. specialize (H n Hn).
  by destruct (execOpsByBucket db k l) as [tx' [err|]].
Qed.

(** Its result and what it leaves in its own bucket depend on that bucket
    only. *)
Lemma bucketTx_local db1 db2 k l :
  db1 !! bytes_of k = db2 !! bytes_of k →
  (bucketTx db1 k l).2 = (bucketTx db2 k l).2 ∧
  (bucketTx db1 k l).1 !! bytes_of k = (bucketTx db2 k l).1 !! bytes_of k.
Proof.
  intros Heq. unfold bucketTx, bolt.Batch.
  destruct (execOpsByBucket_touches k l db1) as [_ H]. destruct (H db2 Heq) as [He Hl].
  destruct (execOpsByBucket db1 k l) as [tx1 [e1|]],
           (execOpsByBucket db2 k l) as [tx2 [e2|]]; simpl in *; done.
Qed.

(** ** The visiting order *)

Lemma range_order_NoDup b order : range_order b order → NoDup order.*1.
Proof.
  unfold range_order. intros ->. apply NoDup_fst_map_to_list.
Qed.

Lemma range_order_elem b order k l : range_order b order → (k, l) ∈ order ↔ ops b !! k = Some l.
Proof.
  unfold range_order. intros ->. apply elem_of_map_to_list.
Qed.

Lemma NoDup_cons_fst {A} (k : string) (l : A) rest k' l' :
  NoDup ((k, l) :: rest).*1 → (k', l') ∈ rest → bytes_of k' ≠ bytes_of k.
Proof.
  rewrite fmap_cons, NoDup_cons. simpl. intros [Hk _] Hin Heq.
  apply bytes_of_inj in Heq as ->. apply Hk.
  apply list_elem_of_fmap. by exists (k, l').
Qed.

(** ** Execute *)

(** A failing run stops at the failing partition. *)
Lemma Execute_loop_error order db db' e :
  Execute_loop order db = (db', Some e) →
  ∃ pre k l post,
    order = pre ++ (k, l) :: post ∧
    Execute_loop pre db = (db', None) ∧
    bucketTx db' k l = (db', Some e).
Proof.
  revert db. induction order as [|[k l] rest IH]; intros db; simpl; [done|].
  destruct (bucketTx db k l) as [db1 [e1|]] eqn:Htx.
  - pose proof (bucketTx_rollback db k l e1) as Hrb. rewrite Htx in Hrb.
    simpl in Hrb. specialize (Hrb eq_refl). subst db1.
    intros ?; simplify_eq. by exists [], k, l, rest.
  - intros Hrest. destruct (IH _ Hrest) as (pre & k' & l' & post & -> & Hpre & Hfail).
    exists ((k, l) :: pre), k', l', post. split_and!; [done| |done].
    simpl. by rewrite Htx.
Qed.

(** A run without error has committed every partition it visited. *)
Lemma Execute_loop_committed order db db' :
  NoDup order.*1 →
  Execute_loop order db = (db', None) →
  (∀ k l, (k, l) ∈ order →
     (bucketTx db k l).2 = None ∧
     db' !! bytes_of k = (bucketTx db k l).1 !! bytes_of k) ∧
  (∀ n, (∀ k l, (k, l) ∈ order → n ≠ bytes_of k) → db' !! n = db !! n).
Proof.
  revert db. induction order as [|[k l] rest IH]; intros db Hnd; simpl.
  - intros [= <-]. split; [|done]. intros k l Hin. by apply elem_of_nil in Hin.
  - destruct (bucketTx db k l) as [db1 [e1|]] eqn:Htx; [done|]. intros Hrest.
    assert (NoDup rest.*1) as Hnd' by (by apply NoDup_cons in Hnd as [_ ?]).
    destruct (IH db1 Hnd' Hrest) as [IH1 IH2]. split.
    + intros k' l' Hin. apply elem_of_cons in Hin as [[= -> ->]|Hin].
      * rewrite Htx. split; [done|]. simpl. apply IH2.
        intros k2 l2 Hin2 Heq. by eapply (NoDup_cons_fst k l rest k2 l2).
      * assert (db1 !! bytes_of k' = db !! bytes_of k') as Hsame.
        { pose proof (bucketTx_frame db k l (bytes_of k')) as Hf.
          rewrite Htx in Hf. apply Hf. by eapply NoDup_cons_fst. }
        destruct (bucketTx_local db1 db k' l' Hsame) as [He Hl].
        destruct (IH1 k' l' Hin) as [IHe IHl]. split; congruence.
    + intros n Hn. rewrite IH2.
      * pose proof (bucketTx_frame db k l n) as Hf. rewrite Htx in Hf. apply Hf.
        apply (Hn k l). by left.
      * intros k2 l2 Hin2. apply (Hn k2 l2). by right.
Qed.

(** ** ExecuteConcurrent: the goroutines *)

Lemma weigh_insert w ts i (t t' : task) :
  ts !! i = Some t →
  weigh w (<[i := t']> ts) = (weigh w ts - w t.2 + w t'.2)%Z.
Proof.
  revert i. induction ts as [|t0 ts IH]; intros [|i]; simpl; try done.
  - intros [= ->]. lia.
  - intros Hi. rewrite (IH i Hi). lia.
Qed.

Lemma weigh_nonneg w ts : (∀ p, 0 ≤ w p)%Z → (0 ≤ weigh w ts)%Z.
Proof.
  intros Hw. induction ts as [|t ts IH]; simpl; [lia|]. specialize (Hw t.2). lia.
Qed.

Lemma weigh_pos w ts :
  (∀ p, 0 ≤ w p)%Z → (0 < weigh w ts)%Z → ∃ j (t : task), ts !! j = Some t ∧ (0 < w t.2)%Z.
Proof.
  intros Hw. induction ts as [|t ts IH]; simpl; [lia|]. intros Hpos.
  destruct (decide (0 < w t.2)%Z) as [Ht|Ht].
  - by exists 0%nat, t.
  - destruct IH as (j & t' & Hj & Ht'); [lia|]. by exists (S j), t'.
Qed.

Lemma weigh_lookup_le w ts i (t : task) :
  (∀ p, 0 ≤ w p)%Z → ts !! i = Some t → (w t.2 ≤ weigh w ts)%Z.
Proof.
  intros Hw. revert i. induction ts as [|t0 ts IH]; intros [|i]; simpl; try done.
  - intros [= ->]. pose proof (weigh_nonneg w ts Hw). lia.
  - intros Hi. specialize (IH i Hi). specialize (Hw t0.2). lia.
Qed.

Lemma weigh_launched w (order : list (string * list WriteOperation)) :
  weigh w ((λ p, (p, Launched)) <$> order) = (w Launched * len order)%Z.
Proof.
  unfold len. induction order as [|p order IH]; [simpl; lia|].
  rewrite fmap_cons. unfold weigh in *. cbn [foldr length snd]. rewrite IH. lia.
Qed.

Lemma set_task_keys s i k l p p' :
  tasks s !! i = Some (k, l, p) → (set_task s i (k, l, p')).*1 = (tasks s).*1.
Proof.
  intros Hi. unfold set_task. rewrite list_fmap_insert. simpl.
  apply list_insert_id. by rewrite list_lookup_fmap, Hi.
Qed.

Lemma set_task_lookup s i j t t' :
  set_task s i t !! j = Some t' →
  (i = j ∧ t' = t) ∨ (i ≠ j ∧ tasks s !! j = Some t').
Proof.
  unfold set_task. rewrite list_lookup_insert_Some.
  intros [(-> & -> & _)|[? ?]]; [by left | by right].
Qed.

Lemma tasks_elem_order s i k l p order :
  (tasks s).*1 = order → tasks s !! i = Some (k, l, p) → (k, l) ∈ order.
Proof.
  intros <- Hi. apply list_elem_of_fmap. exists (k, l, p). split; [done|].
  by eapply list_elem_of_lookup_2.
Qed.

Lemma tasks_keys_distinct s i j k l p k' l' p' :
  NoDup (tasks s).*1.*1 →
  tasks s !! i = Some (k, l, p) → tasks s !! j = Some (k', l', p') →
  i ≠ j → bytes_of k' ≠ bytes_of k.
Proof.
  intros Hnd Hi Hj Hij Heq. apply bytes_of_inj in Heq as ->. apply Hij.
  eapply (NoDup_lookup _ i j k Hnd); by rewrite !list_lookup_fmap, ?Hi, ?Hj.
Qed.

Lemma holds_slot_nonneg p : (0 ≤ holds_slot p)%Z.
Proof. destruct p; simpl; lia. Qed.

Section goroutines.
Variables (b : BoltBatch) (order : list (string * list WriteOperation)).
Variables (db : bolt.DB) (cap : Z).
Hypothesis order_NoDup : NoDup order.*1.
Hypothesis cap_nonneg : (0 ≤ cap)%Z.

Lemma launch_inv : conc_inv b order db cap (launch b order db).
Proof.
  split; simpl; try done.
  - rewrite <- list_fmap_compose. apply list_fmap_id.
  - unfold in_flight. rewrite weigh_launched. simpl. lia.
  - intros i k l p Hi. apply list_lookup_fmap_Some in Hi as (? & ? & ?). by simplify_eq.
  - intros i k l p r Hi. apply list_lookup_fmap_Some in Hi as (? & ? & ?). by simplify_eq.
  - intros _ i k l Hi. apply list_lookup_fmap_Some in Hi as (? & ? & ?). by simplify_eq.
Qed.

Lemma step_inv s s' :
  conc_inv b order db cap s → step cap s s' → conc_inv b order db cap s'.
Proof.
  intros [Hb Hts Hsl Hcap Hown Hoth Hres Hsome Hnone] Hstep.
  assert (NoDup (tasks s).*1.*1) as Hnd by (by rewrite Hts).
  destruct Hstep as [s i k l Hi Hlt | s i k l Hi | s i k l r Hi Hpos | s i k l r Hi];
    split; simpl; try done;
    try (by erewrite set_task_keys);
    try (unfold in_flight, set_task; rewrite (weigh_insert _ _ _ _ _ Hi); simpl;
         unfold in_flight in Hsl; lia);
    try lia.
  all: try (intros j k' l' p' Hj; apply set_task_lookup in Hj as [[-> [= -> -> ->]]|[Hij Hj]]).
  all: try (intros j k' l' p' r' Hj; apply set_task_lookup in Hj as [[-> [= -> -> ->]]|[Hij Hj]]).
  all: try (intros Hg j k' l' Hj; apply set_task_lookup in Hj as [[-> [= -> ->]]|[Hij Hj]]).
  all: eauto.
  - exact (Hown _ _ _ _ Hi).
  - by destruct (bucketTx_local (store s) db k l (Hown _ _ _ _ Hi)).
  - rewrite bucketTx_frame by (by eapply tasks_keys_distinct). eauto.
  - intros n Hn. rewrite bucketTx_frame; [by apply Hoth|].
    eapply Hn, tasks_elem_order; eauto.
  - intros [= <-]. by destruct (bucketTx_local (store s) db k l (Hown _ _ _ _ Hi)).
  - exact (Hown _ _ _ _ Hi).
  - exact (Hown _ _ _ _ Hi).
  - done.
  - intros e He. pose proof (Hres _ _ _ _ r Hi eq_refl) as Hr.
    destruct r as [e'|]; simpl in He; [|by apply Hsome].
    destruct (group_err s) as [e0|] eqn:Hg; simplify_eq; [by apply Hsome|].
    exists k, l. split; [|done]. eapply tasks_elem_order; eauto.
  - pose proof (Hres _ _ _ _ r Hi eq_refl) as Hr.
    destruct r as [e'|]; simpl in Hg; [by destruct (group_err s)|done].
  - eapply Hnone; [|done]. destruct r; simpl in Hg; [by destruct (group_err s)|done].
Qed.

Lemma reachable_inv s :
  rtc (step cap) (launch b order db) s → conc_inv b order db cap s.
Proof.
  revert s. apply rtc_ind_r; [apply launch_inv|].
  intros s s' _ Hstep Hinv. by eapply step_inv.
Qed.

(** Every step uses up one unit of fuel, so a run has [4 * len order] steps
    at most. *)
Lemma step_fuel s s' : step cap s s' → fuel s' = (fuel s - 1)%Z.
Proof.
  destruct 1 as [s i k l Hi Hlt | s i k l Hi | s i k l r Hi Hpos | s i k l r Hi];
    unfold fuel, set_task; simpl; rewrite (weigh_insert _ _ _ _ _ Hi); simpl; lia.
Qed.

Lemma fuel_nonneg s : (0 ≤ fuel s)%Z.
Proof. apply weigh_nonneg. intros []; simpl; lia. Qed.

Lemma nsteps_fuel n s :
  nsteps (step cap) n (launch b order db) s → fuel s = (4 * len order - Z.of_nat n)%Z.
Proof.
  revert s. induction n as [|n IH]; intros s Hn.
  - inv Hn. unfold fuel, launch. simpl.
    rewrite weigh_launched. simpl. lia.
  - apply nsteps_inv_r in Hn as (s0 & Hn & Hstep).
    rewrite (step_fuel _ _ Hstep), (IH _ Hn). lia.
Qed.

Lemma fuel_0_finished s : fuel s = 0%Z → all_finished s.
Proof.
  unfold fuel, all_finished. induction (tasks s) as [|t ts IH]; simpl; [by constructor|].
  intros H. pose proof (weigh_nonneg steps_left ts) as Hts.
  assert (∀ p, 0 ≤ steps_left p)%Z as Hp by (intros []; simpl; lia).
  specialize (Hts Hp). pose proof (Hp t.2). constructor.
  - destruct t as [kl []]; simpl in *; try lia. done.
  - apply IH. lia.
Qed.

(** No deadlock: while a goroutine is unfinished, some goroutine can move.
    A goroutine waiting for a slot can be the only kind left only when no
    slot is taken, and the gate has at least one slot when there is a
    partition at all. *)
Hypothesis cap_pos : order ≠ [] → (1 ≤ cap)%Z.

Lemma step_exists s :
  conc_inv b order db cap s → (0 < fuel s)%Z → ∃ s', step cap s s'.
Proof.
  intros Hinv Hfuel.
  destruct (weigh_pos steps_left (tasks s)) as (i & [[k l] p] & Hi & Hp);
    [intros []; simpl; lia | done |].
  destruct p as [| |r|r|]; simpl in Hp; try lia.
  - destruct (decide (slots s < cap)%Z) as [Hlt|Hge].
    + eexists. by eapply step_acquire.
    + assert (order ≠ []) as Hne.
      { rewrite <- (inv_tasks _ _ _ _ _ Hinv). by destruct (tasks s). }
      specialize (cap_pos Hne).
      destruct (weigh_pos holds_slot (tasks s)) as (j & [[k' l'] p'] & Hj & Hp');
        [intros []; simpl; lia | |].
      { fold (in_flight (tasks s)). rewrite <- (inv_slots _ _ _ _ _ Hinv). lia. }
      destruct p' as [| |r'|r'|]; simpl in Hp'; try lia.
      * eexists. by eapply step_batch.
      * eexists. eapply step_release; [done|lia].
  - eexists. by eapply step_batch.
  - eexists. eapply step_release; [done|].
    rewrite (inv_slots _ _ _ _ _ Hinv).
    pose proof (weigh_lookup_le holds_slot _ _ _ holds_slot_nonneg Hi) as Hle.
    unfold in_flight. simpl in Hle. lia.
  - eexists. by eapply step_report.
Qed.

Lemma all_finished_fuel s : all_finished s → fuel s = 0%Z.
Proof.
  unfold all_finished, fuel. induction 1 as [|t ts Ht _ IH]; simpl; [done|].
  rewrite Ht, IH. done.
Qed.

(** Every state on the way can be run to the end. *)
Lemma run_to_end s :
  conc_inv b order db cap s → ∃ s', rtc (step cap) s s' ∧ all_finished s'.
Proof.
  remember (Z.to_nat (fuel s)) as n eqn:Hn. revert s Hn.
  induction n as [|n IH]; intros s Hn Hinv.
  - exists s. split; [done|]. apply fuel_0_finished. pose proof (fuel_nonneg s). lia.
  - destruct (step_exists s Hinv) as [s' Hstep]; [lia|].
    destruct (IH s') as (s'' & Hrtc & Hfin).
    + rewrite (step_fuel _ _ Hstep). lia.
    + by eapply step_inv.
    + exists s''. split; [by eapply rtc_l|done].
Qed.
End goroutines.
(** ** Add *)

Lemma Add_below b op :
  (len_map (ops b) < MAX_SEQUENTIAL_OPERATIONS)%Z →
  Add b op =
    ({| ops := <[string_of (Bucket op) := ops_at b (string_of (Bucket op)) ++ [op]]> (ops b) |},
     None).
Proof.
  intros Hlt. unfold Add.
  destruct (len_map (ops b) >=? MAX_SEQUENTIAL_OPERATIONS)%Z eqn:E; [lia|done].
Qed.

Lemma Add_full b op :
  (MAX_SEQUENTIAL_OPERATIONS ≤ len_map (ops b))%Z →
  Add b op = (b, Some ErrMaxSequentialOperations).
Proof.
  intros Hge. unfold Add.
  destruct (len_map (ops b) >=? MAX_SEQUENTIAL_OPERATIONS)%Z eqn:E; [done|lia].
Qed.

(** Adding to the one partition a batch has never meets the guard. *)
Lemma AddAll_same_bucket op pre n :
  AddAll {| ops := {[string_of (Bucket op) := pre]} |} (replicate n op) =
    ({| ops := {[string_of (Bucket op) := pre ++ replicate n op]} |}, None).
Proof.
  revert pre. induction n as [|n IH]; intros pre; simpl.
  - by rewrite app_nil_r.
  - rewrite Add_below.
    + unfold ops_at. simpl. rewrite lookup_singleton_eq, insert_singleton_eq. simpl.
      rewrite IH. by rewrite <- app_assoc.
    + unfold len_map. simpl. rewrite map_size_singleton. unfold MAX_SEQUENTIAL_OPERATIONS. lia.
Qed.

Lemma AddAll_new_bucket op n :
  AddAll NewBoltBatch (replicate (S n) op) =
    ({| ops := {[string_of (Bucket op) := replicate (S n) op]} |}, None).
Proof.
  simpl. rewrite Add_below.
  - unfold ops_at. simpl. rewrite lookup_empty, insert_empty. simpl.
    by rewrite AddAll_same_bucket.
  - unfold len_map. simpl. rewrite map_size_empty. unfold MAX_SEQUENTIAL_OPERATIONS. lia.
Qed.

(** What the guard of Add does keep bounded is the number of partitions. *)
Lemma Add_partitions_bounded b op :
  (len_map (ops b) ≤ MAX_SEQUENTIAL_OPERATIONS)%Z →
  (len_map (ops (Add b op).1) ≤ MAX_SEQUENTIAL_OPERATIONS)%Z.
Proof.
  intros Hle. unfold Add.
  destruct (len_map (ops b) >=? MAX_SEQUENTIAL_OPERATIONS)%Z eqn:E; simpl; [done|].
  unfold len_map in *. rewrite map_size_insert.
  destruct (ops b !! string_of (Bucket op)); simpl; lia.
Qed.

Lemma AddAll_partitions_bounded l b :
  (len_map (ops b) ≤ MAX_SEQUENTIAL_OPERATIONS)%Z →
  (len_map (ops (AddAll b l).1) ≤ MAX_SEQUENTIAL_OPERATIONS)%Z.
Proof.
  revert b. induction l as [|op l IH]; intros b Hle; simpl; [done|].
  pose proof (Add_partitions_bounded b op Hle) as Hadd.
  destruct (Add b op) as [b' [err|]]; simpl in *; [done|]. by apply IH.
Qed.

(** ** One partition's transaction and the replay the specification asks for *)

(** A transaction whose first operation is valid applies that operation to
    the bucket, and stops there. *)
Lemma bucketTx_head db bucket op rest :
  bytes_of bucket ≠ [] → valid_op op →
  bucketTx db bucket (op :: rest) =
    (<[bytes_of bucket := apply_ops (default ∅ (db !! bytes_of bucket)) [op]]> db, None).
Proof.
  intros Hname Hvalid. unfold bucketTx, bolt.Batch, execOpsByBucket.
  unfold bolt.CreateBucketIfNotExists.
  destruct (len (bytes_of bucket) =? 0)%Z eqn:Hlen.
  { unfold len in Hlen. destruct (bytes_of bucket); [done|]. simpl in Hlen. lia. }
  assert (∀ tx : bolt.Tx,
            tx !! bytes_of bucket = Some (default ∅ (db !! bytes_of bucket)) →
            <[bytes_of bucket := default ∅ (db !! bytes_of bucket)]> db = tx →
            execOps tx (bytes_of bucket) (op :: rest) =
              (<[bytes_of bucket := apply_ops (default ∅ (db !! bytes_of bucket)) [op]]> db,
               None)) as Hrun.
  { intros tx Hlook <-. simpl. unfold apply_op.
    destruct Hvalid as [(Hset & v & Hv & Hkey & Hval) | Hdel].
    - destruct (decide (Op op = OpSet)); [|done]. rewrite Hv.
      unfold bolt.Bucket_Put.
      destruct (len (Key op) =? 0)%Z eqn:E1; [lia|].
      destruct (len (Key op) >? bolt.MaxKeySize)%Z eqn:E2; [lia|].
      destruct (len v >? bolt.MaxValueSize)%Z eqn:E3; [lia|].
      by rewrite Hlook, insert_insert_eq.
    - destruct (decide (Op op = OpSet)) as [Hset|_].
      { rewrite Hdel in Hset. discriminate Hset. }
      destruct (decide (Op op = OpDelete)); [|done].
      unfold bolt.Bucket_Delete. by rewrite Hlook, insert_insert_eq. }
  destruct (db !! bytes_of bucket) as [content|] eqn:Hdb.
  - rewrite (Hrun db); [done|done|]. by apply insert_id.
  - rewrite (Hrun (<[bytes_of bucket := ∅]> db)); [done| |done]. by rewrite lookup_insert_eq.
Qed.

(** ** The store adapter: reading back what was written *)

Lemma Get_Set db bucketName key value :
  bytes_of bucketName ≠ [] →
  (0 < len (bytes_of key) ≤ bolt.MaxKeySize)%Z → (len value ≤ bolt.MaxValueSize)%Z →
  (Set_ db bucketName key value).2 = None ∧
  Get (Set_ db bucketName key value).1 bucketName key = (Some value, None).
Proof.
  intros Hname Hkey Hval.
  pose proof (bucketTx_head db bucketName
                (mkWriteOperation (bytes_of bucketName) (bytes_of key) (Some value) OpSet) []
                Hname) as Htx.
  unfold bucketTx, execOpsByBucket in Htx. simpl in Htx. unfold Set_.
  rewrite Htx.
  - split; [done|]. unfold Get, bolt.View, bolt.Tx_Bucket, bolt.Bucket_Get.
    cbn [fst]. rewrite lookup_insert_eq. unfold apply_op. simpl.
    by rewrite lookup_insert_eq.
  - left. split; [done|]. by exists value.
Qed.

Lemma Get_Delete db bucketName key :
  is_Some (db !! bytes_of bucketName) →
  (Delete db bucketName key).2 = None ∧
  Get (Delete db bucketName key).1 bucketName key = (None, None).
Proof.
  intros [content Hdb]. unfold Delete, bolt.Batch, bolt.Tx_Bucket. rewrite Hdb.
  unfold bolt.Bucket_Delete. simpl. split; [done|].
  unfold Get, bolt.View, bolt.Tx_Bucket, bolt.Bucket_Get.
  cbn [fst]. by rewrite lookup_insert_eq, lookup_delete_eq.
Qed.

(** ** The claims *)

(** C1 (the code departs from it).  In the scenario of the specification the
    three Adds succeed and Execute succeeds in either visiting order, but it
    leaves "A" under users/u1, the value of the first Set, where replaying
    the partition's operations in insertion order leaves "B". *)
Theorem Execute_scenario_keeps_first_set :
  AddAll NewBoltBatch (users_ops ++ orders_ops) = (scenario, None) ∧
  map_to_list (ops scenario) = [("orders", orders_ops); ("users", users_ops)] ∧
  Execute [("orders", orders_ops); ("users", users_ops)] scenario ∅ =
    (scenario,
     {[bytes_of "orders" := ∅; bytes_of "users" := {[bytes_of "u1" := bytes_of "A"]}]},
     None) ∧
  Execute [("users", users_ops); ("orders", orders_ops)] scenario ∅ =
    (scenario,
     {[bytes_of "orders" := ∅; bytes_of "users" := {[bytes_of "u1" := bytes_of "A"]}]},
     None) ∧
  apply_ops ∅ users_ops = {[bytes_of "u1" := bytes_of "B"]}.
Proof. repeat split; reflexivity. Qed.

(** C2 (the code departs from it).  Of the two Sets queued for "users", the
    partition's transaction runs the first and returns: the last operation
    of the partition, the Set of "B", is not executed, and Get finds "A"
    under users/u1.  A transaction that does run that last operation leaves
    "B", and so does the replay of all the partition's operations in
    insertion order. *)
Theorem last_operation_not_executed :
  bucketTx ∅ "users" users_ops =
    ({[bytes_of "users" := {[bytes_of "u1" := bytes_of "A"]}]}, None) ∧
  bucketTx ∅ "users" [opSet "users" "u1" "B"] =
    ({[bytes_of "users" := {[bytes_of "u1" := bytes_of "B"]}]}, None) ∧
  bucketTx ∅ "users" users_ops ≠ bucketTx ∅ "users" [opSet "users" "u1" "B"] ∧
  last users_ops = Some (opSet "users" "u1" "B") ∧
  Get (bucketTx ∅ "users" users_ops).1 "users" "u1" = (Some (bytes_of "A"), None) ∧
  apply_ops ∅ users_ops = {[bytes_of "u1" := bytes_of "B"]}.
Proof.
  split; [reflexivity|]. split; [reflexivity|]. split; [|repeat split; reflexivity].
  intros H.
  apply (f_equal (λ r : bolt.DB * option error,
                    r.1 !! bytes_of "users" ≫= λ content, content !! bytes_of "u1")) in H.
  vm_compute in H. discriminate H.
Qed.

(** The early return, for any partition: the transaction runs the first
    operation whose kind is "set" or "delete" and returns its result; the
    operations before it are passed over for their kind, the operations
    after it are not reached. *)
Lemma execOpsByBucket_first_operation_only tx bucket skipped op rest :
  Forall (λ o, Op o ≠ OpSet ∧ Op o ≠ OpDelete) skipped →
  Op op = OpSet ∨ Op op = OpDelete →
  execOpsByBucket tx bucket (skipped ++ op :: rest) = execOpsByBucket tx bucket [op] ∧
  bucketTx tx bucket (skipped ++ op :: rest) = bucketTx tx bucket [op].
Proof.
  intros Hskip Hop.
  assert (∀ tx' name, execOps tx' name (skipped ++ op :: rest) = execOps tx' name [op]) as Hloop.
  { intros tx' name. induction Hskip as [|o skipped [Hs Hd] _ IH]; simpl.
    - destruct (decide (Op op = OpSet)); [done|].
      destruct (decide (Op op = OpDelete)); [done|]. by destruct Hop.
    - destruct (decide (Op o = OpSet)); [done|].
      destruct (decide (Op o = OpDelete)); [done|]. apply IH. }
  assert (execOpsByBucket tx bucket (skipped ++ op :: rest) = execOpsByBucket tx bucket [op]) as H.
  { unfold execOpsByBucket.
    destruct (bolt.CreateBucketIfNotExists tx (bytes_of bucket)) as [tx' [err|]]; [done|].
    apply Hloop. }
  split; [done|]. unfold bucketTx, bolt.Batch. by rewrite H.
Qed.

Example early_return_skips_the_rest :
  bucketTx ∅ "users"
    ([mkWriteOperation (bytes_of "users") (bytes_of "u0") None "touch"]
       ++ opSet "users" "u1" "A" :: [opSet "users" "u1" "B"; opDelete "users" "u1"]) =
  bucketTx ∅ "users" [opSet "users" "u1" "A"].
Proof.
  apply execOpsByBucket_first_operation_only.
  - constructor; [|constructor]. split; discriminate.
  - left. reflexivity.
Qed.

(** C3 (the code departs from it).  5001 operations for one partition are
    all accepted: the guard of Add compares the number of partitions with
    the limit, and the batch ends with 5001 queued operations. *)
Theorem Add_accepts_more_than_the_limit :
  AddAll NewBoltBatch many_users = ({| ops := {["users" := many_users]} |}, None) ∧
  total_ops {| ops := {["users" := many_users]} |} = 5001%Z ∧
  len_map (ops {| ops := {["users" := many_users]} |}) = 1%Z.
Proof.
  split_and!.
  - unfold many_users.
    replace (Z.to_nat 5001) with (S (Z.to_nat 5000)) by lia.
    apply (AddAll_new_bucket (opSet "users" "u1" "A")).
  - unfold total_ops. simpl. rewrite map_fold_singleton.
    unfold len, many_users. rewrite length_replicate. lia.
  - unfold len_map. simpl. by rewrite map_size_singleton.
Qed.

(** C4.  When the batch tracks as many partitions as the limit, Add returns
    the capacity error and the batch it leaves is the batch it was given:
    no partition's sequence has changed, and the number of queued
    operations is what it was. *)
Theorem Add_rejected_at_capacity b op :
  (MAX_SEQUENTIAL_OPERATIONS ≤ len_map (ops b))%Z →
  Add b op = (b, Some ErrMaxSequentialOperations) ∧
  (∀ k, ops_at (Add b op).1 k = ops_at b k) ∧
  total_ops (Add b op).1 = total_ops b.
Proof. intros Hge. by rewrite (Add_full b op Hge). Qed.

Lemma Add_rejected_at_capacity_witness :
  (MAX_SEQUENTIAL_OPERATIONS ≤ len_map (ops full))%Z ∧
  Add full (opSet "users" "u1" "A") = (full, Some ErrMaxSequentialOperations) ∧
  (∀ k, ops_at (Add full (opSet "users" "u1" "A")).1 k = ops_at full k) ∧
  total_ops (Add full (opSet "users" "u1" "A")).1 = total_ops full.
Proof.
  assert (MAX_SEQUENTIAL_OPERATIONS ≤ len_map (ops full))%Z as Hfull.
  { vm_compute. discriminate. }
  split; [exact Hfull|].
  exact (Add_rejected_at_capacity full (opSet "users" "u1" "A") Hfull).
Defined.

(** C5.  When Execute returns an error, the visiting order splits around
    the partition whose transaction failed: every partition before it was
    processed without error and is committed (its bucket holds what its
    transaction leaves), the failing transaction returned the error and
    was rolled back, and the buckets of the failing partition and of
    every partition after it are as they were before the call. *)
Theorem Execute_stops_at_first_failure b order db b' db' e :
  range_order b order →
  Execute order b db = (b', db', Some e) →
  ∃ pre k l post,
    order = pre ++ (k, l) :: post ∧
    Execute_loop pre db = (db', None) ∧
    (∀ k' l', (k', l') ∈ pre →
       (bucketTx db k' l').2 = None ∧
       db' !! bytes_of k' = (bucketTx db k' l').1 !! bytes_of k') ∧
    bucketTx db' k l = (db', Some e) ∧
    (∀ k' l', (k', l') ∈ (k, l) :: post → db' !! bytes_of k' = db !! bytes_of k').
Proof.
  intros Hord. unfold Execute.
  destruct (Execute_loop order db) as [db1 err] eqn:Hloop. intros [= <- <- ->].
  destruct (Execute_loop_error _ _ _ _ Hloop) as (pre & k & l & post & -> & Hpre & Hfail).
  apply range_order_NoDup in Hord as Hnd.
  assert (NoDup pre.*1) as Hndpre.
  { rewrite fmap_app in Hnd. by apply NoDup_app in Hnd as [? _]. }
  destruct (Execute_loop_committed pre db db1 Hndpre Hpre) as [Hcommitted Hframe].
  exists pre, k, l, post. split_and!; [done..|].
  intros k' l' Hin. apply Hframe. intros k2 l2 Hin2 Heq.
  apply bytes_of_inj in Heq as ->.
  rewrite fmap_app in Hnd. apply NoDup_app in Hnd as (_ & Hdisj & _).
  apply (Hdisj k2).
  - apply list_elem_of_fmap. by exists (k2, l2).
  - apply list_elem_of_fmap. by exists (k2, l').
Qed.

Lemma Execute_stops_at_first_failure_witness :
  range_order faulty (map_to_list (ops faulty)) ∧
  Execute (map_to_list (ops faulty)) faulty ∅ =
    (faulty, {[bytes_of "c" := {[bytes_of "z" := bytes_of "3"]}]}, Some ErrValueIsNil) ∧
  ∃ pre k l post,
    map_to_list (ops faulty) = pre ++ (k, l) :: post ∧
    Execute_loop pre ∅ = ({[bytes_of "c" := {[bytes_of "z" := bytes_of "3"]}]}, None) ∧
    (∀ k' l', (k', l') ∈ pre →
       (bucketTx ∅ k' l').2 = None ∧
       ({[bytes_of "c" := {[bytes_of "z" := bytes_of "3"]}]} : bolt.DB) !! bytes_of k' =
         (bucketTx ∅ k' l').1 !! bytes_of k') ∧
    bucketTx {[bytes_of "c" := {[bytes_of "z" := bytes_of "3"]}]} k l =
      ({[bytes_of "c" := {[bytes_of "z" := bytes_of "3"]}]}, Some ErrValueIsNil) ∧
    (∀ k' l', (k', l') ∈ (k, l) :: post →
       ({[bytes_of "c" := {[bytes_of "z" := bytes_of "3"]}]} : bolt.DB) !! bytes_of k' =
         (∅ : bolt.DB) !! bytes_of k').
Proof.
  assert (range_order faulty (map_to_list (ops faulty))) as Hord by (unfold range_order; reflexivity).
  assert (Execute (map_to_list (ops faulty)) faulty ∅ =
            (faulty, {[bytes_of "c" := {[bytes_of "z" := bytes_of "3"]}]}, Some ErrValueIsNil))
    as Hrun by reflexivity.
  split; [exact Hord|]. split; [exact Hrun|].
  exact (Execute_stops_at_first_failure faulty _ ∅ _ _ _ Hord Hrun).
Defined.

(** ** ExecuteConcurrent: the gate and the outcome *)

Lemma range_order_len b order : range_order b order → len order = len_map (ops b).
Proof.
  unfold range_order, len, len_map. intros ->. by rewrite length_map_to_list.
Qed.

Lemma semaphore_cap_nonneg b : (0 ≤ semaphore_cap b)%Z.
Proof. unfold semaphore_cap, MAX_CONCURRENT_OPERATIONS, len_map. lia. Qed.

Lemma semaphore_cap_pos b order :
  range_order b order → order ≠ [] → (1 ≤ semaphore_cap b)%Z.
Proof.
  intros Hord Hne. unfold semaphore_cap, MAX_CONCURRENT_OPERATIONS.
  rewrite <- (range_order_len b order Hord). unfold len.
  destruct order; [done|]. simpl length. lia.
Qed.

Lemma reachable_conc_inv b order db s :
  range_order b order →
  rtc (step (semaphore_cap b)) (launch b order db) s →
  conc_inv b order db (semaphore_cap b) s.
Proof.
  intros Hord. apply reachable_inv.
  - by eapply range_order_NoDup.
  - apply semaphore_cap_nonneg.
Qed.

Lemma finished_task s order k l :
  (tasks s).*1 = order → all_finished s → (k, l) ∈ order →
  ∃ i, tasks s !! i = Some (k, l, Finished).
Proof.
  intros <- Hfin Hin. apply list_elem_of_fmap in Hin as ([kl p] & [= <-] & Hin).
  unfold all_finished in Hfin. rewrite Forall_forall in Hfin.
  specialize (Hfin _ Hin). simpl in Hfin. subst p.
  by apply list_elem_of_lookup_1 in Hin.
Qed.

(** What [ExecuteConcurrent] leaves: every partition's bucket holds what the
    partition's transaction, run on the database as it was, leaves there; no
    other bucket has changed; the result is [nil] when every transaction
    succeeded, and the error of a failed transaction otherwise. *)
Lemma ExecuteConcurrent_outcome order b db b' db' err :
  range_order b order →
  ExecuteConcurrent order b db (b', db', err) →
  b' = b ∧
  (∀ k l, (k, l) ∈ order → db' !! bytes_of k = (bucketTx db k l).1 !! bytes_of k) ∧
  (∀ n, (∀ k l, (k, l) ∈ order → n ≠ bytes_of k) → db' !! n = db !! n) ∧
  (err = None ↔ ∀ k l, (k, l) ∈ order → (bucketTx db k l).2 = None) ∧
  (∀ e, err = Some e → ∃ k l, (k, l) ∈ order ∧ (bucketTx db k l).2 = Some e).
Proof.
  intros Hord (s & Hrtc & Hfin & [= -> -> ->]).
  pose proof (reachable_conc_inv b order db s Hord Hrtc)
    as [Hb Hts Hsl Hcap Hown Hoth Hres Hsome Hnone].
  split_and!; [done| |done| |done].
  - intros k l Hin. destruct (finished_task s order k l Hts Hfin Hin) as [i Hi].
    apply (Hown _ _ _ _ Hi).
  - split.
    + intros Hg k l Hin. destruct (finished_task s order k l Hts Hfin Hin) as [i Hi].
      by eapply Hnone.
    + intros Hall. destruct (group_err s) as [e|] eqn:Hg; [|done].
      destruct (Hsome e eq_refl) as (k & l & Hin & He). by rewrite (Hall k l Hin) in He.
Qed.

(** [ExecuteConcurrent] does end. *)
Lemma ExecuteConcurrent_returns order b db :
  range_order b order → ∃ res, ExecuteConcurrent order b db res.
Proof.
  intros Hord.
  destruct (run_to_end b order db (semaphore_cap b)) with (s := launch b order db)
    as (s & Hrtc & Hfin).
  - by eapply range_order_NoDup.
  - by apply semaphore_cap_pos.
  - apply launch_inv. apply semaphore_cap_nonneg.
  - exists (batch s, store s, group_err s), s. done.
Qed.

(** Once the group holds an error it keeps it. *)
Lemma group_err_kept cap s s' e :
  step cap s s' → group_err s = Some e → group_err s' = Some e.
Proof.
  destruct 1 as [s i k l Hi Hlt | s i k l Hi | s i k l r Hi Hpos | s i k l r Hi];
    simpl; try done.
  intros ->. by destruct r.
Qed.

(** No step writes to the batch. *)
Lemma step_batch_kept cap s s' : rtc (step cap) s s' → batch s' = batch s.
Proof.
  induction 1 as [|s s1 s2 Hstep _ IH]; [done|]. rewrite IH. by destruct Hstep.
Qed.

(** The group's error is written by the goroutine that is first to hand it a
    failure. *)
Lemma group_err_first cap s s' e :
  step cap s s' → group_err s = None → group_err s' = Some e →
  ∃ i k l, tasks s !! i = Some (k, l, Released (Some e)).
Proof.
  destruct 1 as [s i k l Hi Hlt | s i k l Hi | s i k l r Hi Hpos | s i k l r Hi];
    simpl; try congruence.
  intros ->. destruct r as [e'|]; simpl; [|done]. intros [= ->]. eauto.
Qed.

Lemma all_finished_in_flight s : all_finished s → in_flight (tasks s) = 0%Z.
Proof.
  unfold all_finished, in_flight. induction 1 as [|t ts Ht _ IH]; simpl; [done|].
  rewrite Ht, IH. done.
Qed.

(** A visited partition with a Set that has no value at its head. *)
Lemma bucketTx_value_nil db bucket op rest :
  Op op = OpSet → Value op = None → bytes_of bucket ≠ [] →
  bucketTx db bucket (op :: rest) = (db, Some ErrValueIsNil).
Proof.
  intros Hset Hnil Hname. unfold bucketTx, bolt.Batch, execOpsByBucket.
  unfold bolt.CreateBucketIfNotExists.
  destruct (len (bytes_of bucket) =? 0)%Z eqn:Hlen.
  { unfold len in Hlen. destruct (bytes_of bucket); [done|]. simpl in Hlen. lia. }
  destruct (db !! bytes_of bucket); simpl;
    (destruct (decide (Op op = OpSet)); [|done]); by rewrite Hnil.
Qed.

(** C6.  For a visiting order of the batch: [ExecuteConcurrent] ends, each
    of its runs takes at most four steps per partition and is never stuck
    while a goroutine is unfinished; when it ends, every partition's bucket
    holds what that partition's transaction leaves on the database as it
    was before the call, whatever the other transactions returned; the
    result is [nil] exactly when every partition's transaction succeeded,
    and otherwise the error of a partition's transaction; and that error is
    the first one handed to the group: the goroutine that finds the group
    without an error writes its own, and no later step replaces it. *)
Theorem ExecuteConcurrent_first_error order b db :
  range_order b order →
  (∃ res, ExecuteConcurrent order b db res) ∧
  (∀ n s, nsteps (step (semaphore_cap b)) n (launch b order db) s →
     (Z.of_nat n ≤ 4 * len order)%Z ∧
     (¬ all_finished s → ∃ s', step (semaphore_cap b) s s')) ∧
  (∀ b' db' err, ExecuteConcurrent order b db (b', db', err) →
     (∀ k l, (k, l) ∈ order → db' !! bytes_of k = (bucketTx db k l).1 !! bytes_of k) ∧
     (err = None ↔ ∀ k l, (k, l) ∈ order → (bucketTx db k l).2 = None) ∧
     (∀ e, err = Some e → ∃ k l, (k, l) ∈ order ∧ (bucketTx db k l).2 = Some e)) ∧
  (∀ s s' e, rtc (step (semaphore_cap b)) (launch b order db) s →
     step (semaphore_cap b) s s' →
     (group_err s = Some e → group_err s' = Some e) ∧
     (group_err s = None → group_err s' = Some e →
        ∃ i k l, tasks s !! i = Some (k, l, Released (Some e)))).
Proof.
  intros Hord. split_and!.
  - by apply ExecuteConcurrent_returns.
  - intros n s Hn. split.
    + pose proof (nsteps_fuel b order db _ n s Hn). pose proof (fuel_nonneg s). lia.
    + intros Hnot. apply (step_exists b order db (semaphore_cap b)).
      * by apply semaphore_cap_pos.
      * apply reachable_conc_inv; [done|]. by eapply rtc_nsteps_2.
      * pose proof (fuel_nonneg s). destruct (decide (fuel s = 0%Z)) as [H0|H0]; [|lia].
        destruct Hnot. by apply fuel_0_finished.
  - intros b' db' err Hres.
    destruct (ExecuteConcurrent_outcome _ _ _ _ _ _ Hord Hres) as (_ & ? & _ & ? & ?).
    done.
  - intros s s' e _ Hstep. split.
    + by apply (group_err_kept _ _ _ _ Hstep).
    + by apply (group_err_first _ _ _ _ Hstep).
Qed.

Lemma ExecuteConcurrent_first_error_witness :
  range_order faulty (map_to_list (ops faulty)) ∧
  ∃ res, ExecuteConcurrent (map_to_list (ops faulty)) faulty ∅ res.
Proof.
  assert (range_order faulty (map_to_list (ops faulty))) as Hord
    by (unfold range_order; reflexivity).
  split; [exact Hord|].
  exact (proj1 (ExecuteConcurrent_first_error _ faulty ∅ Hord)).
Defined.

(** C7.  A Set without a value is queued by Add like any other operation
    (Add does not look at the value); when a transaction comes to run it,
    the transaction returns the "value is nil" error and is rolled back, so
    the database is as it was; and under [ExecuteConcurrent] the call then
    returns an error, the partition's bucket is as it was, and every other
    partition's bucket holds what its own transaction leaves. *)
Theorem Set_without_value_fails_when_executed op :
  Op op = OpSet → Value op = None →
  (∀ b, (len_map (ops b) < MAX_SEQUENTIAL_OPERATIONS)%Z →
     ∃ b', Add b op = (b', None) ∧
           ops_at b' (string_of (Bucket op)) = ops_at b (string_of (Bucket op)) ++ [op]) ∧
  (∀ b v, (Add b op).2 = (Add b (mkWriteOperation (Bucket op) (Key op) v (Op op))).2) ∧
  (∀ db bucket rest, bytes_of bucket ≠ [] →
     bucketTx db bucket (op :: rest) = (db, Some ErrValueIsNil)) ∧
  (∀ order b db bucket rest b' db' err,
     range_order b order → (bucket, op :: rest) ∈ order → bytes_of bucket ≠ [] →
     ExecuteConcurrent order b db (b', db', err) →
     err ≠ None ∧
     db' !! bytes_of bucket = db !! bytes_of bucket ∧
     ∀ k l, (k, l) ∈ order → k ≠ bucket →
       db' !! bytes_of k = (bucketTx db k l).1 !! bytes_of k).
Proof.
  intros Hset Hnil. split_and!.
  - intros b Hlt. eexists. split; [by apply Add_below|].
    unfold ops_at at 1. simpl. by rewrite lookup_insert_eq.
  - intros b v. unfold Add. simpl. by destruct (len_map (ops b) >=? _)%Z.
  - intros db bucket rest Hname. by apply bucketTx_value_nil.
  - intros order b db bucket rest b' db' err Hord Hin Hname Hres.
    destruct (ExecuteConcurrent_outcome _ _ _ _ _ _ Hord Hres) as (_ & Hown & _ & Hnil' & _).
    pose proof (bucketTx_value_nil db bucket op rest Hset Hnil Hname) as Htx.
    split_and!.
    + intros Herr. pose proof (proj1 Hnil' Herr _ _ Hin) as Hok. by rewrite Htx in Hok.
    + rewrite (Hown _ _ Hin). by rewrite Htx.
    + intros k l Hin' _. by apply Hown.
Qed.

Lemma Set_without_value_fails_when_executed_witness :
  Op (opSetNil "a" "x") = OpSet ∧ Value (opSetNil "a" "x") = None ∧
  ∀ db bucket rest, bytes_of bucket ≠ [] →
    bucketTx db bucket (opSetNil "a" "x" :: rest) = (db, Some ErrValueIsNil).
Proof.
  split; [reflexivity|]. split; [reflexivity|].
  exact (proj1 (proj2 (proj2
    (Set_without_value_fails_when_executed (opSetNil "a" "x") eq_refl eq_refl)))).
Defined.

(** C8.  In every state [ExecuteConcurrent] can reach, the goroutines that
    hold a slot (past the send, and not yet past the deferred receive) are as
    many as the channel holds elements and at most min(10, number of
    partitions); a step that changes the database is the transaction of a
    goroutine that holds a slot; a goroutine whose transaction has
    returned, with an error or without, can give its slot back (the channel
    is not empty then), and doing so frees one slot; and when all goroutines
    have finished no slot is held. *)
Theorem semaphore_bounds_transactions_in_flight order b db s :
  range_order b order →
  rtc (step (semaphore_cap b)) (launch b order db) s →
  semaphore_cap b = Z.min 10 (len order) ∧
  slots s = in_flight (tasks s) ∧
  (0 ≤ in_flight (tasks s) ≤ Z.min 10 (len order))%Z ∧
  (∀ s', step (semaphore_cap b) s s' → store s' ≠ store s →
     ∃ i k l, tasks s !! i = Some (k, l, Holding) ∧ holds_slot Holding = 1%Z ∧
              store s' = (bucketTx (store s) k l).1) ∧
  (∀ i k l r, tasks s !! i = Some (k, l, Returned r) →
     ∃ s', step (semaphore_cap b) s s' ∧
           tasks s' !! i = Some (k, l, Released r) ∧
           slots s' = (slots s - 1)%Z ∧
           in_flight (tasks s') = (in_flight (tasks s) - 1)%Z) ∧
  (all_finished s → slots s = 0%Z).
Proof.
  intros Hord Hrtc.
  pose proof (reachable_conc_inv b order db s Hord Hrtc) as Hinv.
  assert (semaphore_cap b = Z.min 10 (len order)) as Hcap.
  { unfold semaphore_cap, MAX_CONCURRENT_OPERATIONS. by rewrite (range_order_len b order Hord). }
  pose proof (inv_slots _ _ _ _ _ Hinv) as Hslots.
  pose proof (inv_cap _ _ _ _ _ Hinv) as Hle.
  split_and!; try done.
  - unfold in_flight. apply weigh_nonneg. intros []; simpl; lia.
  - lia.
  - intros s' Hstep Hne.
    destruct Hstep as [s i k l Hi Hlt | s i k l Hi | s i k l r Hi Hpos | s i k l r Hi];
      simpl in Hne; try done.
    by exists i, k, l.
  - intros i k l r Hi. eexists. split.
    { eapply step_release; [done|]. rewrite Hslots.
      pose proof (weigh_lookup_le holds_slot _ _ _ holds_slot_nonneg Hi) as Hin.
      unfold in_flight. simpl in Hin. lia. }
    simpl. split_and!; [|done|].
    + unfold set_task. apply list_lookup_insert_eq. by eapply lookup_lt_Some.
    + unfold in_flight, set_task. rewrite (weigh_insert _ _ _ _ _ Hi). simpl. lia.
  - intros Hfin. rewrite Hslots. by apply all_finished_in_flight.
Qed.

Lemma semaphore_bounds_transactions_in_flight_witness :
  range_order faulty (map_to_list (ops faulty)) ∧
  rtc (step (semaphore_cap faulty)) (launch faulty (map_to_list (ops faulty)) ∅)
      one_holding ∧
  slots one_holding = in_flight (tasks one_holding) ∧
  (0 ≤ in_flight (tasks one_holding) ≤ Z.min 10 (len (map_to_list (ops faulty))))%Z.
Proof.
  assert (range_order faulty (map_to_list (ops faulty))) as Hord
    by (unfold range_order; reflexivity).
  assert (rtc (step (semaphore_cap faulty)) (launch faulty (map_to_list (ops faulty)) ∅)
              one_holding) as Hrtc.
  { apply rtc_once.
    apply (step_acquire _ (launch faulty (map_to_list (ops faulty)) ∅) 0%nat
                        "c" [opSet "c" "z" "3"]); [reflexivity|].
    vm_compute. reflexivity. }
  split; [exact Hord|]. split; [exact Hrtc|].
  pose proof (semaphore_bounds_transactions_in_flight _ faulty ∅ _ Hord Hrtc) as H.
  exact (conj (proj1 (proj2 H)) (proj1 (proj2 (proj2 H)))).
Defined.

(** C9.  The batch after [Execute] and after [ExecuteConcurrent], with an
    error or without, is the batch before: the same operations are queued
    for the same partitions.  A second call therefore runs what a call on
    the original batch runs. *)
Theorem Execute_keeps_queued_operations order b db :
  ops (Execute order b db).1.1 = ops b ∧
  (∀ b' db' err, ExecuteConcurrent order b db (b', db', err) → ops b' = ops b) ∧
  (∀ db2, Execute order (Execute order b db).1.1 db2 = Execute order b db2) ∧
  (∀ b' db' err db2 res2,
     ExecuteConcurrent order b db (b', db', err) →
     ExecuteConcurrent order b' db2 res2 ↔ ExecuteConcurrent order b db2 res2).
Proof.
  assert ((Execute order b db).1.1 = b) as Hseq.
  { unfold Execute. by destruct (Execute_loop order db). }
  assert (∀ b' db' err, ExecuteConcurrent order b db (b', db', err) → b' = b) as Hconc.
  { intros b' db' err (s & Hrtc & _ & [= -> _ _]).
    by rewrite (step_batch_kept _ _ _ Hrtc). }
  split_and!.
  - by rewrite Hseq.
  - intros b' db' err Hres. by rewrite (Hconc _ _ _ Hres).
  - intros db2. by rewrite Hseq.
  - intros b' db' err db2 res2 Hres. by rewrite (Hconc _ _ _ Hres).
Qed.

(** C9, on an example: a key that was removed between two calls of Execute
    is written again by the second call. *)
Example Execute_twice_replays :
  (Execute (map_to_list (ops scenario)) scenario ∅).1.2 !! bytes_of "users"
    = Some {[bytes_of "u1" := bytes_of "A"]} ∧
  (Delete (Execute (map_to_list (ops scenario)) scenario ∅).1.2 "users" "u1").1
    !! bytes_of "users" = Some ∅ ∧
  (Execute (map_to_list (ops scenario))
     (Execute (map_to_list (ops scenario)) scenario ∅).1.1
     (Delete (Execute (map_to_list (ops scenario)) scenario ∅).1.2 "users" "u1").1).1.2
    !! bytes_of "users" = Some {[bytes_of "u1" := bytes_of "A"]}.
Proof. repeat split; reflexivity. Qed.

(** C10.  Get returns a nil value and a nil error when the bucket does not
    exist, and when the bucket exists and the key is not in it. *)
Theorem Get_not_found_is_nil db bucketName key :
  db !! bytes_of bucketName = None ∨
  (∃ content, db !! bytes_of bucketName = Some content ∧ content !! bytes_of key = None) →
  Get db bucketName key = (None, None).
Proof.
  unfold Get, bolt.View, bolt.Tx_Bucket, bolt.Bucket_Get.
  intros [-> | (content & -> & ->)]; reflexivity.
Qed.

Lemma Get_not_found_is_nil_witness :
  (((Execute (map_to_list (ops scenario)) scenario ∅).1.2 !! bytes_of "orders" = None ∨
    ∃ content,
      (Execute (map_to_list (ops scenario)) scenario ∅).1.2 !! bytes_of "orders" = Some content ∧
      content !! bytes_of "o1" = None)) ∧
  Get (Execute (map_to_list (ops scenario)) scenario ∅).1.2 "orders" "o1" = (None, None).
Proof.
  assert ((Execute (map_to_list (ops scenario)) scenario ∅).1.2 !! bytes_of "orders" = None ∨
          ∃ content,
            (Execute (map_to_list (ops scenario)) scenario ∅).1.2 !! bytes_of "orders"
              = Some content ∧
            content !! bytes_of "o1" = None) as Hmiss.
  { right. exists ∅. split; reflexivity. }
  split; [exact Hmiss|].
  exact (Get_not_found_is_nil _ "orders" "o1" Hmiss).
Defined.

(** * Further properties of the code *)

(** ** Add: grouping *)

Lemma Add_accepted b op b' :
  Add b op = (b', None) →
  (len_map (ops b) < MAX_SEQUENTIAL_OPERATIONS)%Z ∧
  ops b' = <[string_of (Bucket op) := ops_at b (string_of (Bucket op)) ++ [op]]> (ops b).
Proof.
  unfold Add. destruct (len_map (ops b) >=? MAX_SEQUENTIAL_OPERATIONS)%Z eqn:E; [done|].
  intros [= <-]. split; [lia|done].
Qed.

Lemma ops_at_Add b op b' k :
  Add b op = (b', None) →
  ops_at b' k =
    if decide (string_of (Bucket op) = k) then ops_at b k ++ [op] else ops_at b k.
Proof.
  intros [_ Hops]%Add_accepted. unfold ops_at at 1. rewrite Hops.
  destruct (decide (string_of (Bucket op) = k)) as [<-|Hne].
  - by rewrite lookup_insert_eq.
  - by rewrite lookup_insert_ne.
Qed.

(** X1.  Adds that are all accepted file every operation under its own bucket,
    behind the operations the partition already had, in the order of the
    calls. *)
Theorem AddAll_groups_in_insertion_order l b b' :
  AddAll b l = (b', None) →
  ∀ k, ops_at b' k = ops_at b k ++ filter (λ op, string_of (Bucket op) = k) l.
Proof.
  revert b. induction l as [|op l IH]; intros b; simpl.
  - intros [= <-] k. by rewrite app_nil_r.
  - destruct (Add b op) as [b1 [err|]] eqn:Hadd; [done|]. intros Hrest k.
    rewrite (IH _ Hrest k), (ops_at_Add _ _ _ k Hadd), filter_cons.
    destruct (decide (string_of (Bucket op) = k)); [|done].
    by rewrite <- app_assoc.
Qed.

Lemma AddAll_groups_in_insertion_order_witness :
  AddAll NewBoltBatch (users_ops ++ orders_ops) = (scenario, None) ∧
  ∀ k, ops_at scenario k =
       ops_at NewBoltBatch k ++
       filter (λ op, string_of (Bucket op) = k) (users_ops ++ orders_ops).
Proof.
  assert (AddAll NewBoltBatch (users_ops ++ orders_ops) = (scenario, None)) as Hadd
    by reflexivity.
  split; [exact Hadd|].
  exact (AddAll_groups_in_insertion_order _ _ _ Hadd).
Defined.

(** What every batch built with Add satisfies. *)
Lemma Add_keeps_partitions_filed b op :
  (∀ k q, ops b !! k = Some q → q ≠ [] ∧ Forall (λ o, string_of (Bucket o) = k) q) →
  ∀ k q, ops (Add b op).1 !! k = Some q →
         q ≠ [] ∧ Forall (λ o, string_of (Bucket o) = k) q.
Proof.
  intros Hinv k q. unfold Add.
  destruct (len_map (ops b) >=? MAX_SEQUENTIAL_OPERATIONS)%Z; simpl; [apply Hinv|].
  destruct (decide (string_of (Bucket op) = k)) as [<-|Hne].
  - rewrite lookup_insert_eq. intros [= <-]. split; [by destruct (ops_at b _)|].
    apply Forall_app. split; [|by repeat constructor].
    unfold ops_at. destruct (ops b !! string_of (Bucket op)) as [q0|] eqn:Hq0; simpl.
    + by apply (Hinv _ _ Hq0).
    + constructor.
  - rewrite lookup_insert_ne by done. apply Hinv.
Qed.

(** X2.  A batch built from a new batch by calls of Add tracks at most 5000
    partitions, tracks no partition without an operation, and holds every
    operation under the name of the operation's own bucket. *)
Theorem Add_batch_invariant l :
  (len_map (ops (AddAll NewBoltBatch l).1) ≤ MAX_SEQUENTIAL_OPERATIONS)%Z ∧
  ∀ k q, ops (AddAll NewBoltBatch l).1 !! k = Some q →
         q ≠ [] ∧ Forall (λ o, string_of (Bucket o) = k) q.
Proof.
  split.
  - apply AddAll_partitions_bounded. unfold len_map, NewBoltBatch. simpl.
    rewrite map_size_empty. unfold MAX_SEQUENTIAL_OPERATIONS. lia.
  - assert (∀ b, (∀ k q, ops b !! k = Some q →
                     q ≠ [] ∧ Forall (λ o, string_of (Bucket o) = k) q) →
                 ∀ k q, ops (AddAll b l).1 !! k = Some q →
                     q ≠ [] ∧ Forall (λ o, string_of (Bucket o) = k) q) as Hgen.
    { induction l as [|op l IH]; intros b Hinv; simpl; [done|].
      pose proof (Add_keeps_partitions_filed b op Hinv) as Hadd.
      destruct (Add b op) as [b1 [err|]]; simpl in *; [done|]. by apply IH. }
    apply Hgen. intros k q. unfold NewBoltBatch. simpl. by rewrite lookup_empty.
Qed.

(** ** One partition's transaction *)

Lemma execOps_keeps_bucket tx name l :
  is_Some (tx !! name) → is_Some ((execOps tx name l).1 !! name).
Proof.
  intros Hsome. induction l as [|op rest IH]; simpl; [done|].
  destruct (decide (Op op = OpSet)).
  - destruct (Value op); [|done]. unfold bolt.Bucket_Put.
    repeat case_match; simpl; try done. rewrite lookup_insert_eq. eauto.
  - destruct (decide (Op op = OpDelete)); [|done].
    unfold bolt.Bucket_Delete. simpl. rewrite lookup_insert_eq. eauto.
Qed.

(** A committed transaction leaves the partition's bucket in the database. *)
Lemma bucketTx_creates_bucket db k l :
  (bucketTx db k l).2 = None → is_Some ((bucketTx db k l).1 !! bytes_of k).
Proof.
  unfold bucketTx, bolt.Batch, execOpsByBucket, bolt.CreateBucketIfNotExists.
  destruct (len (bytes_of k) =? 0)%Z; [done|].
  destruct (db !! bytes_of k) as [content|] eqn:Hdb.
  - pose proof (execOps_keeps_bucket db (bytes_of k) l) as H.
    destruct (execOps db (bytes_of k) l) as [tx' [err|]]; simpl in *; [done|].
    intros _. apply H. by rewrite Hdb.
  - pose proof (execOps_keeps_bucket (<[bytes_of k := ∅]> db) (bytes_of k) l) as H.
    destruct (execOps (<[bytes_of k := ∅]> db) (bytes_of k) l) as [tx' [err|]];
      simpl in *; [done|].
    intros _. apply H. rewrite lookup_insert_eq. eauto.
Qed.

Lemma execOps_unknown_kinds tx name l :
  Forall (λ o, Op o ≠ OpSet ∧ Op o ≠ OpDelete) l → execOps tx name l = (tx, None).
Proof.
  induction 1 as [|op rest [Hs Hd] _ IH]; simpl; [done|].
  destruct (decide (Op op = OpSet)); [done|].
  by destruct (decide (Op op = OpDelete)).
Qed.

(** X3.  Operations whose kind is neither "set" nor "delete" are passed over
    without an error: a partition that holds only such operations gets its
    bucket created when it is missing, and nothing is written. *)
Theorem bucketTx_unknown_kinds_ignored db bucket l :
  bytes_of bucket ≠ [] →
  Forall (λ o, Op o ≠ OpSet ∧ Op o ≠ OpDelete) l →
  bucketTx db bucket l =
    (match db !! bytes_of bucket with
     | Some _ => db
     | None => <[bytes_of bucket := ∅]> db
     end, None).
Proof.
  intros Hname Hl. unfold bucketTx, bolt.Batch, execOpsByBucket, bolt.CreateBucketIfNotExists.
  destruct (len (bytes_of bucket) =? 0)%Z eqn:Hlen.
  { unfold len in Hlen. destruct (bytes_of bucket); [done|]. simpl in Hlen. lia. }
  destruct (db !! bytes_of bucket); by rewrite execOps_unknown_kinds.
Qed.

Lemma bucketTx_unknown_kinds_ignored_witness :
  bytes_of "users" ≠ [] ∧
  Forall (λ o, Op o ≠ OpSet ∧ Op o ≠ OpDelete)
    [mkWriteOperation (bytes_of "users") (bytes_of "u1") (Some (bytes_of "A")) "Set"] ∧
  bucketTx ∅ "users"
    [mkWriteOperation (bytes_of "users") (bytes_of "u1") (Some (bytes_of "A")) "Set"] =
    (match (∅ : bolt.DB) !! bytes_of "users" with
     | Some _ => ∅
     | None => <[bytes_of "users" := ∅]> ∅
     end, None).
Proof.
  assert (bytes_of "users" ≠ []) as Hname by discriminate.
  assert (Forall (λ o, Op o ≠ OpSet ∧ Op o ≠ OpDelete)
            [mkWriteOperation (bytes_of "users") (bytes_of "u1") (Some (bytes_of "A")) "Set"])
    as Hl.
  { constructor; [|constructor]. split; discriminate. }
  split; [exact Hname|]. split; [exact Hl|].
  exact (bucketTx_unknown_kinds_ignored ∅ "users" _ Hname Hl).
Defined.

(** X4.  A Delete queued in a batch creates the bucket it names when the bucket
    is missing, and succeeds; the Delete of the store adapter returns
    "bucket not found" for the same bucket and leaves the database as it
    was. *)
Theorem Delete_of_missing_bucket db bucket key :
  bytes_of bucket ≠ [] →
  db !! bytes_of bucket = None →
  Delete db bucket key = (db, Some ErrBucketNotFound) ∧
  bucketTx db bucket [opDelete bucket key] = (<[bytes_of bucket := ∅]> db, None).
Proof.
  intros Hname Hdb. split.
  - unfold Delete, bolt.Batch, bolt.Tx_Bucket. by rewrite Hdb.
  - rewrite (bucketTx_head db bucket (opDelete bucket key) [] Hname); [|by right].
    rewrite Hdb. simpl. unfold apply_op. simpl. by rewrite delete_empty.
Qed.

Lemma Delete_of_missing_bucket_witness :
  bytes_of "orders" ≠ [] ∧
  (∅ : bolt.DB) !! bytes_of "orders" = None ∧
  Delete ∅ "orders" "o1" = (∅, Some ErrBucketNotFound) ∧
  bucketTx ∅ "orders" [opDelete "orders" "o1"] = (<[bytes_of "orders" := ∅]> ∅, None).
Proof.
  assert (bytes_of "orders" ≠ []) as Hname by discriminate.
  assert ((∅ : bolt.DB) !! bytes_of "orders" = None) as Hdb by reflexivity.
  split; [exact Hname|]. split; [exact Hdb|].
  exact (Delete_of_missing_bucket ∅ "orders" "o1" Hname Hdb).
Defined.

(** ** Execute and ExecuteConcurrent: what a run leaves *)

(** A database is fixed by what the partitions' transactions leave in their
    buckets and by the buckets no partition names. *)
Lemma db_determined (order : list (string * list WriteOperation)) (db db1 db2 : bolt.DB) :
  (∀ k l, (k, l) ∈ order → db1 !! bytes_of k = (bucketTx db k l).1 !! bytes_of k) →
  (∀ n, (∀ k l, (k, l) ∈ order → n ≠ bytes_of k) → db1 !! n = db !! n) →
  (∀ k l, (k, l) ∈ order → db2 !! bytes_of k = (bucketTx db k l).1 !! bytes_of k) →
  (∀ n, (∀ k l, (k, l) ∈ order → n ≠ bytes_of k) → db2 !! n = db !! n) →
  db1 = db2.
Proof.
  intros H1 F1 H2 F2. apply map_eq. intros n.
  destruct (decide (n ∈ (λ p : string * list WriteOperation, bytes_of p.1) <$> order))
    as [Hin|Hnot].
  - apply list_elem_of_fmap in Hin as ([k l] & -> & Hin). simpl.
    by rewrite (H1 _ _ Hin), (H2 _ _ Hin).
  - assert (∀ k l, (k, l) ∈ order → n ≠ bytes_of k) as Hn.
    { intros k l Hin ->. apply Hnot. apply list_elem_of_fmap. by exists (k, l). }
    by rewrite (F1 n Hn), (F2 n Hn).
Qed.

Lemma range_order_same b order1 order2 k l :
  range_order b order1 → range_order b order2 → (k, l) ∈ order1 → (k, l) ∈ order2.
Proof.
  intros H1 H2 Hin. apply (range_order_elem b order2 k l H2).
  by apply (range_order_elem b order1 k l H1).
Qed.

(** When every partition's transaction succeeds on the database as it is,
    the loop of Execute succeeds. *)
Lemma Execute_loop_all_succeed order db :
  NoDup order.*1 →
  (∀ k l, (k, l) ∈ order → (bucketTx db k l).2 = None) →
  ∃ db', Execute_loop order db = (db', None).
Proof.
  revert db. induction order as [|[k l] rest IH]; intros db Hnd Hall; simpl; [eauto|].
  pose proof (Hall k l (list_elem_of_here _ _)) as Hk.
  destruct (bucketTx db k l) as [db1 err] eqn:Htx. simpl in Hk. subst err.
  apply IH.
  - by apply NoDup_cons in Hnd as [_ ?].
  - intros k' l' Hin.
    assert (db1 !! bytes_of k' = db !! bytes_of k') as Hsame.
    { pose proof (bucketTx_frame db k l (bytes_of k')) as Hf.
      rewrite Htx in Hf. apply Hf. by eapply NoDup_cons_fst. }
    destruct (bucketTx_local db1 db k' l' Hsame) as [He _].
    rewrite He. apply Hall. by right.
Qed.

(** X5.  When Execute returns nil, every partition of the batch has its bucket
    in the database, holding what the partition's transaction leaves, and
    every bucket that no partition names is as it was. *)
Theorem Execute_success_commits_every_partition b order db b' db' :
  range_order b order →
  Execute order b db = (b', db', None) →
  (∀ k l, ops b !! k = Some l →
     (bucketTx db k l).2 = None ∧
     is_Some (db' !! bytes_of k) ∧
     db' !! bytes_of k = (bucketTx db k l).1 !! bytes_of k) ∧
  (∀ n, (∀ k, is_Some (ops b !! k) → n ≠ bytes_of k) → db' !! n = db !! n).
Proof.
  intros Hord. unfold Execute.
  destruct (Execute_loop order db) as [db1 err] eqn:Hloop. intros [= <- <- ->].
  destruct (Execute_loop_committed order db db1 (range_order_NoDup _ _ Hord) Hloop)
    as [Hcommitted Hframe].
  split.
  - intros k l Hk. apply (range_order_elem b order k l Hord) in Hk.
    destruct (Hcommitted k l Hk) as [He Hl]. split_and!; [done| |done].
    rewrite Hl. by apply bucketTx_creates_bucket.
  - intros n Hn. apply Hframe. intros k l Hin. apply Hn.
    apply (range_order_elem b order k l Hord) in Hin. eauto.
Qed.

Lemma Execute_success_commits_every_partition_witness :
  range_order scenario (map_to_list (ops scenario)) ∧
  Execute (map_to_list (ops scenario)) scenario ∅ =
    (scenario,
     {[bytes_of "orders" := ∅; bytes_of "users" := {[bytes_of "u1" := bytes_of "A"]}]},
     None) ∧
  ∀ k l, ops scenario !! k = Some l →
    (bucketTx ∅ k l).2 = None ∧
    is_Some (({[bytes_of "orders" := ∅;
                bytes_of "users" := {[bytes_of "u1" := bytes_of "A"]}]} : bolt.DB)
             !! bytes_of k) ∧
    ({[bytes_of "orders" := ∅;
       bytes_of "users" := {[bytes_of "u1" := bytes_of "A"]}]} : bolt.DB) !! bytes_of k =
      (bucketTx ∅ k l).1 !! bytes_of k.
Proof.
  assert (range_order scenario (map_to_list (ops scenario))) as Hord
    by (unfold range_order; reflexivity).
  assert (Execute (map_to_list (ops scenario)) scenario ∅ =
            (scenario,
             {[bytes_of "orders" := ∅; bytes_of "users" := {[bytes_of "u1" := bytes_of "A"]}]},
             None)) as Hrun by reflexivity.
  split; [exact Hord|]. split; [exact Hrun|].
  exact (proj1 (Execute_success_commits_every_partition scenario _ ∅ _ _ Hord Hrun)).
Defined.

(** X6.  When Execute returns nil for one visiting order of the map, it returns
    nil and leaves the same database for every other. *)
Theorem Execute_success_any_order b order1 order2 db b' db' :
  range_order b order1 → range_order b order2 →
  Execute order1 b db = (b', db', None) →
  Execute order2 b db = (b', db', None).
Proof.
  intros Hord1 Hord2. unfold Execute.
  destruct (Execute_loop order1 db) as [db1 err] eqn:Hloop1. intros [= <- <- ->].
  destruct (Execute_loop_committed order1 db db1 (range_order_NoDup _ _ Hord1) Hloop1)
    as [Hc1 Hf1].
  destruct (Execute_loop_all_succeed order2 db (range_order_NoDup _ _ Hord2))
    as [db2 Hloop2].
  { intros k l Hin. apply Hc1. by apply (range_order_same b order2 order1). }
  destruct (Execute_loop_committed order2 db db2 (range_order_NoDup _ _ Hord2) Hloop2)
    as [Hc2 Hf2].
  rewrite Hloop2. f_equal. f_equal.
  apply (db_determined order1 db).
  - intros k l Hin. apply Hc2. by apply (range_order_same b order1 order2).
  - intros n Hn. apply Hf2. intros k l Hin. apply (Hn k l).
    by apply (range_order_same b order2 order1).
  - intros k l Hin. by apply Hc1.
  - done.
Qed.

Lemma Execute_success_any_order_witness :
  range_order scenario [("orders", orders_ops); ("users", users_ops)] ∧
  range_order scenario [("users", users_ops); ("orders", orders_ops)] ∧
  Execute [("orders", orders_ops); ("users", users_ops)] scenario ∅ =
    (scenario,
     {[bytes_of "orders" := ∅; bytes_of "users" := {[bytes_of "u1" := bytes_of "A"]}]},
     None) ∧
  Execute [("users", users_ops); ("orders", orders_ops)] scenario ∅ =
    (scenario,
     {[bytes_of "orders" := ∅; bytes_of "users" := {[bytes_of "u1" := bytes_of "A"]}]},
     None).
Proof.
  assert (range_order scenario [("orders", orders_ops); ("users", users_ops)]) as Hord1
    by (unfold range_order; reflexivity).
  assert (range_order scenario [("users", users_ops); ("orders", orders_ops)]) as Hord2.
  { unfold range_order. etransitivity; [apply Permutation_swap|]. reflexivity. }
  assert (Execute [("orders", orders_ops); ("users", users_ops)] scenario ∅ =
            (scenario,
             {[bytes_of "orders" := ∅; bytes_of "users" := {[bytes_of "u1" := bytes_of "A"]}]},
             None)) as Hrun by reflexivity.
  split; [exact Hord1|]. split; [exact Hord2|]. split; [exact Hrun|].
  exact (Execute_success_any_order scenario _ _ ∅ _ _ Hord1 Hord2 Hrun).
Defined.

(** ** Runs by schedule *)

Lemma goroutine_step_sound cap s i : rtc (step cap) s (goroutine_step cap s i).
Proof.
  unfold goroutine_step.
  destruct (tasks s !! i) as [[[k l] [| |r|r|]]|] eqn:Hi; try apply rtc_refl.
  - destruct (decide (slots s < cap)%Z); [|apply rtc_refl].
    apply rtc_once. by apply step_acquire.
  - apply rtc_once. by apply step_batch.
  - destruct (decide (0 < slots s)%Z); [|apply rtc_refl].
    apply rtc_once. by apply step_release.
  - apply rtc_once. by apply step_report.
Qed.

Lemma run_schedule_sound cap schedule s : rtc (step cap) s (run_schedule cap s schedule).
Proof.
  unfold run_schedule. revert s. induction schedule as [|i schedule IH]; intros s; simpl.
  - apply rtc_refl.
  - etransitivity; [apply goroutine_step_sound|apply IH].
Qed.

Lemma finished_all_finished s : finished s = true → all_finished s.
Proof.
  unfold finished, all_finished. rewrite forallb_forall, Forall_forall.
  intros H t Ht. apply list_elem_of_In in Ht. specialize (H t Ht). by destruct (t.2).
Qed.

(** A schedule that brings every goroutine to its end is a run of
    [ExecuteConcurrent]. *)
Lemma ExecuteConcurrent_schedule order b db schedule :
  finished (run_schedule (semaphore_cap b) (launch b order db) schedule) = true →
  ExecuteConcurrent order b db
    (batch (run_schedule (semaphore_cap b) (launch b order db) schedule),
     store (run_schedule (semaphore_cap b) (launch b order db) schedule),
     group_err (run_schedule (semaphore_cap b) (launch b order db) schedule)).
Proof.
  intros Hfin. eexists. split; [apply run_schedule_sound|].
  split; [by apply finished_all_finished|done].
Qed.

(** X7.  Whatever the order in which the goroutines are started and whatever
    their interleaving, ExecuteConcurrent leaves the same batch and the same
    database, and fails in one run exactly when it fails in the other (the
    error it returns may differ). *)
Theorem ExecuteConcurrent_database_determined b order1 order2 db b1 db1 err1 b2 db2 err2 :
  range_order b order1 → range_order b order2 →
  ExecuteConcurrent order1 b db (b1, db1, err1) →
  ExecuteConcurrent order2 b db (b2, db2, err2) →
  b1 = b2 ∧ db1 = db2 ∧ (err1 = None ↔ err2 = None).
Proof.
  intros Hord1 Hord2 Hres1 Hres2.
  destruct (ExecuteConcurrent_outcome _ _ _ _ _ _ Hord1 Hres1) as (-> & Hc1 & Hf1 & Hn1 & _).
  destruct (ExecuteConcurrent_outcome _ _ _ _ _ _ Hord2 Hres2) as (-> & Hc2 & Hf2 & Hn2 & _).
  split_and!; [done| |].
  - apply (db_determined order1 db); [done|done| |].
    + intros k l Hin. apply Hc2. by apply (range_order_same b order1 order2).
    + intros n Hn. apply Hf2. intros k l Hin. apply (Hn k l).
      by apply (range_order_same b order2 order1).
  - rewrite Hn1, Hn2. split; intros Hall k l Hin; apply Hall.
    + by apply (range_order_same b order2 order1).
    + by apply (range_order_same b order1 order2).
Qed.

Lemma ExecuteConcurrent_database_determined_witness :
  range_order two_faults
    [("a", [opSetNil "a" "x"]); ("b", [opSet "b" "" "2"]); ("c", [opSet "c" "z" "3"])] ∧
  range_order two_faults
    [("c", [opSet "c" "z" "3"]); ("b", [opSet "b" "" "2"]); ("a", [opSetNil "a" "x"])] ∧
  ExecuteConcurrent
    [("a", [opSetNil "a" "x"]); ("b", [opSet "b" "" "2"]); ("c", [opSet "c" "z" "3"])]
    two_faults ∅ (batch run_abc, store run_abc, group_err run_abc) ∧
  ExecuteConcurrent
    [("c", [opSet "c" "z" "3"]); ("b", [opSet "b" "" "2"]); ("a", [opSetNil "a" "x"])]
    two_faults ∅ (batch run_cba, store run_cba, group_err run_cba) ∧
  group_err run_abc = Some ErrValueIsNil ∧
  group_err run_cba = Some ErrKeyRequired ∧
  store run_abc = {[bytes_of "c" := {[bytes_of "z" := bytes_of "3"]}]} ∧
  (batch run_abc = batch run_cba ∧ store run_abc = store run_cba ∧
   (group_err run_abc = None ↔ group_err run_cba = None)).
Proof.
  assert (map_to_list (ops two_faults) =
            [("c", [opSet "c" "z" "3"]); ("a", [opSetNil "a" "x"]); ("b", [opSet "b" "" "2"])])
    as Hlist by reflexivity.
  assert (range_order two_faults
            [("a", [opSetNil "a" "x"]); ("b", [opSet "b" "" "2"]); ("c", [opSet "c" "z" "3"])])
    as Hord1.
  { unfold range_order. rewrite Hlist.
    symmetry.
    apply (Permutation_cons_append [("a", [opSetNil "a" "x"]); ("b", [opSet "b" "" "2"])]). }
  assert (range_order two_faults
            [("c", [opSet "c" "z" "3"]); ("b", [opSet "b" "" "2"]); ("a", [opSetNil "a" "x"])])
    as Hord2.
  { unfold range_order. rewrite Hlist. apply Permutation_skip, Permutation_swap. }
  assert (finished run_abc = true) as Hfin1 by reflexivity.
  assert (finished run_cba = true) as Hfin2 by reflexivity.
  pose proof (ExecuteConcurrent_schedule _ two_faults ∅ _ Hfin1) as Hres1.
  pose proof (ExecuteConcurrent_schedule _ two_faults ∅ _ Hfin2) as Hres2.
  split; [exact Hord1|]. split; [exact Hord2|]. split; [exact Hres1|]. split; [exact Hres2|].
  split; [reflexivity|]. split; [reflexivity|]. split; [reflexivity|].
  exact (ExecuteConcurrent_database_determined _ _ _ _ _ _ _ _ _ _ Hord1 Hord2 Hres1 Hres2).
Defined.

(** X8.  Execute returns nil exactly when ExecuteConcurrent does, and then both
    leave the same database. *)
Theorem ExecuteConcurrent_agrees_with_Execute b order1 order2 db b2 db2 err :
  range_order b order1 → range_order b order2 →
  ExecuteConcurrent order2 b db (b2, db2, err) →
  ((Execute order1 b db).2 = None ↔ err = None) ∧
  ((Execute order1 b db).2 = None → Execute order1 b db = (b2, db2, None)).
Proof.
  intros Hord1 Hord2 Hres.
  destruct (ExecuteConcurrent_outcome _ _ _ _ _ _ Hord2 Hres) as (-> & Hc2 & Hf2 & Hn2 & _).
  pose proof (range_order_NoDup _ _ Hord1) as Hnd1.
  unfold Execute. destruct (Execute_loop order1 db) as [db1 err1] eqn:Hloop. simpl.
  split.
  - split.
    + intros ->. apply Hn2. intros k l Hin.
      destruct (Execute_loop_committed order1 db db1 Hnd1 Hloop) as [Hc1 _].
      apply Hc1. by apply (range_order_same b order2 order1).
    + intros Herr. destruct (Execute_loop_all_succeed order1 db Hnd1) as [db1' Hloop'].
      { intros k l Hin. apply (proj1 Hn2 Herr). by apply (range_order_same b order1 order2). }
      rewrite Hloop' in Hloop. by simplify_eq.
  - intros ->. destruct (Execute_loop_committed order1 db db1 Hnd1 Hloop) as [Hc1 Hf1].
    f_equal. f_equal. apply (db_determined order1 db); [by apply Hc1|done| |].
    + intros k l Hin. apply Hc2. by apply (range_order_same b order1 order2).
    + intros n Hn. apply Hf2. intros k l Hin. apply (Hn k l).
      by apply (range_order_same b order2 order1).
Qed.

Lemma ExecuteConcurrent_agrees_with_Execute_witness :
  range_order scenario [("orders", orders_ops); ("users", users_ops)] ∧
  range_order scenario [("users", users_ops); ("orders", orders_ops)] ∧
  ExecuteConcurrent [("users", users_ops); ("orders", orders_ops)] scenario ∅
    (batch run_scenario, store run_scenario, group_err run_scenario) ∧
  group_err run_scenario = None ∧
  ((Execute [("orders", orders_ops); ("users", users_ops)] scenario ∅).2 = None
     ↔ group_err run_scenario = None) ∧
  ((Execute [("orders", orders_ops); ("users", users_ops)] scenario ∅).2 = None →
   Execute [("orders", orders_ops); ("users", users_ops)] scenario ∅
     = (batch run_scenario, store run_scenario, None)).
Proof.
  assert (range_order scenario [("orders", orders_ops); ("users", users_ops)]) as Hord1
    by (unfold range_order; reflexivity).
  assert (range_order scenario [("users", users_ops); ("orders", orders_ops)]) as Hord2.
  { unfold range_order. etransitivity; [apply Permutation_swap|]. reflexivity. }
  assert (finished run_scenario = true) as Hfin by reflexivity.
  pose proof (ExecuteConcurrent_schedule _ scenario ∅ _ Hfin) as Hres.
  split; [exact Hord1|]. split; [exact Hord2|]. split; [exact Hres|]. split; [reflexivity|].
  exact (ExecuteConcurrent_agrees_with_Execute _ _ _ _ _ _ _ Hord1 Hord2 Hres).
Defined.

(** X9.  On a batch without operations Execute and ExecuteConcurrent return nil
    and leave the database as it was; ExecuteConcurrent, whose channel then
    has capacity 0, starts no goroutine and has no other outcome. *)
Theorem Execute_empty_batch b order db :
  ops b = ∅ → range_order b order →
  Execute order b db = (b, db, None) ∧
  semaphore_cap b = 0%Z ∧
  ∀ res, ExecuteConcurrent order b db res ↔ res = (b, db, None).
Proof.
  intros Hempty Hord.
  assert (order = []) as ->.
  { unfold range_order in Hord. rewrite Hempty, map_to_list_empty in Hord.
    by apply Permutation_nil_r in Hord. }
  split_and!; [done| |].
  - unfold semaphore_cap, len_map. rewrite Hempty, map_size_empty. done.
  - intros [[b' db'] err]. split.
    + intros Hres.
      destruct (ExecuteConcurrent_outcome _ _ _ _ _ _ Hord Hres) as (-> & _ & Hf & Hn & _).
      f_equal; [f_equal|].
      * apply map_eq. intros n. apply Hf. intros k l Hin. by apply elem_of_nil in Hin.
      * apply Hn. intros k l Hin. by apply elem_of_nil in Hin.
    + intros [= -> -> ->]. exists (launch b [] db).
      split; [apply rtc_refl|]. split; [constructor|done].
Qed.

Lemma Execute_empty_batch_witness :
  ops NewBoltBatch = ∅ ∧ range_order NewBoltBatch [] ∧
  Execute [] NewBoltBatch ∅ = (NewBoltBatch, ∅, None).
Proof.
  assert (ops NewBoltBatch = ∅) as Hempty by reflexivity.
  assert (range_order NewBoltBatch []) as Hord by (unfold range_order; reflexivity).
  split; [exact Hempty|]. split; [exact Hord|].
  exact (proj1 (Execute_empty_batch NewBoltBatch [] ∅ Hempty Hord)).
Defined.

(** ** The order of a cursor *)

Lemma bytes_leb_total a b : bolt.bytes_leb a b = true ∨ bolt.bytes_leb b a = true.
Proof.
  revert b. induction a as [|x a IH]; intros [|y b]; simpl; auto.
  destruct (Byte.to_N x <? Byte.to_N y)%N eqn:E1; [by left|].
  destruct (Byte.to_N y <? Byte.to_N x)%N eqn:E2; [by right|]. apply IH.
Qed.

Lemma bytes_leb_trans a b c :
  bolt.bytes_leb a b = true → bolt.bytes_leb b c = true → bolt.bytes_leb a c = true.
Proof.
  revert b c. induction a as [|x a IH]; intros [|y b] [|z c]; simpl; try done.
  destruct (N.ltb_spec (Byte.to_N x) (Byte.to_N y)),
           (N.ltb_spec (Byte.to_N y) (Byte.to_N x)),
           (N.ltb_spec (Byte.to_N y) (Byte.to_N z)),
           (N.ltb_spec (Byte.to_N z) (Byte.to_N y)),
           (N.ltb_spec (Byte.to_N x) (Byte.to_N z)),
           (N.ltb_spec (Byte.to_N z) (Byte.to_N x));
    try done; try lia.
  apply IH.
Qed.

#[global] Instance key_le_total {A : Type} : Total (@bolt.key_le A).
Proof. intros p q. apply bytes_leb_total. Qed.

#[global] Instance key_le_trans {A : Type} : Transitive (@bolt.key_le A).
Proof. intros p q r. apply bytes_leb_trans. Qed.

Lemma cursor_order_perm {A : Type} (m : gmap bytes A) :
  bolt.cursor_order m ≡ₚ map_to_list m.
Proof. apply merge_sort_Permutation. Qed.

Lemma cursor_order_sorted {A : Type} (m : gmap bytes A) :
  StronglySorted bolt.key_le (bolt.cursor_order m).
Proof. apply StronglySorted_merge_sort; apply _. Qed.

Lemma cursor_order_NoDup {A : Type} (m : gmap bytes A) : NoDup (bolt.cursor_order m).*1.
Proof. rewrite cursor_order_perm. apply NoDup_fst_map_to_list. Qed.

Lemma cursor_order_elem {A : Type} (m : gmap bytes A) k v :
  (k, v) ∈ bolt.cursor_order m ↔ m !! k = Some v.
Proof. rewrite cursor_order_perm. apply elem_of_map_to_list. Qed.

Lemma cursor_order_to_map {A : Type} (m : gmap bytes A) :
  list_to_map (bolt.cursor_order m) = m.
Proof.
  rewrite (list_to_map_proper _ (map_to_list m)).
  - apply list_to_map_to_list.
  - apply cursor_order_NoDup.
  - apply cursor_order_perm.
Qed.

(** A callback that never fails is called on every pair. *)
Lemma forEach_loop_total {A S : Type} (f : S → bytes → A → S) (st : S) l :
  bolt.forEach_loop (λ st k v, (f st k v, None)) st l =
    (foldl (λ st kv, f st kv.1 kv.2) st l, None).
Proof.
  revert st. induction l as [|[k v] l IH]; intros st; simpl; [done|]. apply IH.
Qed.

Lemma string_of_bytes_of s : string_of (bytes_of s) = s.
Proof. apply String.string_of_list_byte_of_string. Qed.

Lemma string_of_inj a b : string_of a = string_of b → a = b.
Proof.
  intros H. rewrite <- (bytes_of_string_of a), <- (bytes_of_string_of b). by rewrite H.
Qed.

(** ** List *)

Lemma foldl_insert_lookup (l : list (bytes * bytes)) (r : gmap string bytes) (key : string) :
  NoDup l.*1 →
  foldl (λ r kv, <[string_of kv.1 := kv.2]> r) r l !! key =
    match (list_to_map l : gmap bytes bytes) !! bytes_of key with
    | Some v => Some v
    | None => r !! key
    end.
Proof.
  revert r. induction l as [|[k v] l IH]; intros r Hnd; simpl; [done|].
  apply NoDup_cons in Hnd as [Hk Hnd]. rewrite (IH _ Hnd).
  destruct (decide (k = bytes_of key)) as [->|Hne].
  - rewrite lookup_insert_eq, string_of_bytes_of, lookup_insert_eq.
    by rewrite (not_elem_of_list_to_map_1 l (bytes_of key) Hk).
  - rewrite (lookup_insert_ne _ k) by done.
    destruct (list_to_map l !! bytes_of key); [done|].
    apply lookup_insert_ne. intros <-. by rewrite bytes_of_string_of in Hne.
Qed.

(** X10.  List returns no error, and the map it returns has under every key what
    Get returns for that key: the value when the key is in the bucket,
    nothing when it is not or when the bucket does not exist. *)
Theorem List_agrees_with_Get db bucket :
  ∃ m, List db bucket = (Some m, None) ∧
       (∀ key, m !! key = (Get db bucket key).1) ∧
       (db !! bytes_of bucket = None → m = ∅).
Proof.
  unfold List, Get, bolt.View, bolt.Tx_Bucket, bolt.Bucket_Get, bolt.Bucket_ForEach.
  destruct (db !! bytes_of bucket) as [content|] eqn:Hdb.
  - rewrite forEach_loop_total. eexists. split; [done|]. split; [|done].
    intros key. simpl.
    rewrite (foldl_insert_lookup _ _ _ (cursor_order_NoDup content)), cursor_order_to_map.
    by destruct (content !! bytes_of key).
  - exists ∅. split; [done|]. split; [|done]. intros key. by rewrite lookup_empty.
Qed.

(** ** Buckets *)

Lemma forEach_loop_names {A : Type} (r : list string) (l : list (bytes * A)) :
  bolt.forEach_loop (λ r name _, (r ++ [string_of name], None)) r l =
    (r ++ (string_of <$> l.*1), None).
Proof.
  revert r. induction l as [|[k v] l IH]; intros r; simpl.
  - by rewrite app_nil_r.
  - rewrite IH. by rewrite <- app_assoc.
Qed.

(** X11.  Buckets returns the names of the buckets the database has, each once,
    in the byte order of the names. *)
Theorem Buckets_lists_the_buckets db :
  ∃ names, Buckets db = Some names ∧
           NoDup names ∧
           (∀ name, name ∈ names ↔ is_Some (db !! bytes_of name)) ∧
           StronglySorted (λ a b, bolt.bytes_leb (bytes_of a) (bytes_of b) = true) names.
Proof.
  unfold Buckets, bolt.View, bolt.Tx_ForEach. rewrite forEach_loop_names. simpl.
  eexists. split; [done|]. split_and!.
  - apply NoDup_fmap_2_strong; [|apply cursor_order_NoDup].
    intros a b _ _. apply string_of_inj.
  - intros name. rewrite list_elem_of_fmap. split.
    + intros (k & -> & Hk). apply list_elem_of_fmap in Hk as ([k' content] & -> & Hin).
      simpl. rewrite bytes_of_string_of. apply cursor_order_elem in Hin. eauto.
    + intros [content Hc]. exists (bytes_of name). split; [by rewrite string_of_bytes_of|].
      apply list_elem_of_fmap. exists (bytes_of name, content). split; [done|].
      by apply cursor_order_elem.
  - rewrite <- list_fmap_compose.
    apply (StronglySorted_fmap _ bolt.key_le); [|apply cursor_order_sorted].
    intros [k1 c1] [k2 c2] Hle. simpl. by rewrite !bytes_of_string_of.
Qed.

(** ** ForEach *)

Lemma forEach_loop_app {A S : Type} (fn : S → bytes → A → S * option error) st l1 l2 :
  bolt.forEach_loop fn st (l1 ++ l2) =
    match bolt.forEach_loop fn st l1 with
    | (st', Some err) => (st', Some err)
    | (st', None) => bolt.forEach_loop fn st' l2
    end.
Proof.
  revert st. induction l1 as [|[k v] l1 IH]; intros st; simpl; [done|].
  destruct (fn st k v) as [st' [err|]]; [done|]. apply IH.
Qed.

(** X12.  ForEach on a bucket that does not exist returns nil without a call of
    the callback; on a bucket that exists it hands the callback every pair
    of the bucket once, in the byte order of the keys. *)
Theorem ForEach_visits_pairs_in_key_order {S : Type} db bucket
    (fn : S → bytes → bytes → S * option error) (st : S) :
  (db !! bytes_of bucket = None → ForEach db bucket fn st = (st, None)) ∧
  (∀ content, db !! bytes_of bucket = Some content →
     ∃ pairs,
       ForEach db bucket (λ seen k v, (seen ++ [(k, v)], None)) [] = (pairs, None) ∧
       NoDup pairs.*1 ∧
       (∀ k v, (k, v) ∈ pairs ↔ content !! k = Some v) ∧
       StronglySorted (λ p q, bolt.bytes_leb p.1 q.1 = true) pairs).
Proof.
  unfold ForEach, bolt.View, bolt.Tx_Bucket, bolt.Bucket_ForEach. split.
  - by intros ->.
  - intros content ->. exists (bolt.cursor_order content). split_and!.
    + rewrite forEach_loop_total.
      assert (∀ (l acc : list (bytes * bytes)),
                foldl (λ seen kv, seen ++ [(kv.1, kv.2)]) acc l = acc ++ l) as Hfold.
      { induction l as [|[k v] l IH]; intros acc; simpl; [by rewrite app_nil_r|].
        rewrite IH. by rewrite <- app_assoc. }
      by rewrite Hfold.
    + apply cursor_order_NoDup.
    + intros k v. apply cursor_order_elem.
    + apply cursor_order_sorted.
Qed.

(** X13.  ForEach stops at the first pair for which the callback returns an
    error, and returns that error: the pairs behind it are not visited. *)
Theorem ForEach_stops_at_first_error {S : Type} db bucket content
    (fn : S → bytes → bytes → S * option error) (st st1 st2 : S) pre k v post e :
  db !! bytes_of bucket = Some content →
  bolt.cursor_order content = pre ++ (k, v) :: post →
  bolt.forEach_loop fn st pre = (st1, None) →
  fn st1 k v = (st2, Some e) →
  ForEach db bucket fn st = (st2, Some e).
Proof.
  intros Hdb Horder Hpre Hfail.
  unfold ForEach, bolt.View, bolt.Tx_Bucket, bolt.Bucket_ForEach.
  rewrite Hdb. change (bolt.forEach_loop fn st (bolt.cursor_order content) = (st2, Some e)).
  rewrite Horder, forEach_loop_app, Hpre. simpl. by rewrite Hfail.
Qed.

Lemma ForEach_stops_at_first_error_witness :
  ({[bytes_of "users" := {[bytes_of "u1" := bytes_of "A"; bytes_of "u2" := bytes_of "B"]}]}
     : bolt.DB) !! bytes_of "users"
    = Some {[bytes_of "u1" := bytes_of "A"; bytes_of "u2" := bytes_of "B"]} ∧
  bolt.cursor_order
    ({[bytes_of "u1" := bytes_of "A"; bytes_of "u2" := bytes_of "B"]} : gmap bytes bytes)
    = [] ++ (bytes_of "u1", bytes_of "A") :: [(bytes_of "u2", bytes_of "B")] ∧
  ForEach
    {[bytes_of "users" := {[bytes_of "u1" := bytes_of "A"; bytes_of "u2" := bytes_of "B"]}]}
    "users" (λ (n : nat) _ _, (S n, Some ErrValueIsNil)) 0%nat
    = (1%nat, Some ErrValueIsNil).
Proof.
  assert (({[bytes_of "users" :=
               {[bytes_of "u1" := bytes_of "A"; bytes_of "u2" := bytes_of "B"]}]}
             : bolt.DB) !! bytes_of "users"
          = Some {[bytes_of "u1" := bytes_of "A"; bytes_of "u2" := bytes_of "B"]}) as Hdb
    by reflexivity.
  assert (bolt.cursor_order
            ({[bytes_of "u1" := bytes_of "A"; bytes_of "u2" := bytes_of "B"]}
               : gmap bytes bytes)
          = [] ++ (bytes_of "u1", bytes_of "A") :: [(bytes_of "u2", bytes_of "B")]) as Horder
    by reflexivity.
  split; [exact Hdb|]. split; [exact Horder|].
  exact (ForEach_stops_at_first_error _ "users" _
           (λ (n : nat) _ _, (S n, Some ErrValueIsNil)) 0%nat 0%nat 1%nat
           [] _ _ _ ErrValueIsNil Hdb Horder eq_refl eq_refl).
Defined.

(** ** Set and Delete of the store adapter *)

(** Set is the transaction a batch runs for a partition with that one Set. *)
Lemma Set_is_bucketTx db bucket key value :
  Set_ db bucket key value =
    bucketTx db bucket [mkWriteOperation (bytes_of bucket) (bytes_of key) (Some value) OpSet].
Proof. reflexivity. Qed.

Lemma Set_frame db bucket key value n :
  n ≠ bytes_of bucket → (Set_ db bucket key value).1 !! n = db !! n.
Proof. intros Hn. rewrite Set_is_bucketTx. by apply bucketTx_frame. Qed.

Lemma Delete_frame db bucket key n :
  n ≠ bytes_of bucket → (Delete db bucket key).1 !! n = db !! n.
Proof.
  intros Hn. unfold Delete, bolt.Batch, bolt.Tx_Bucket, bolt.Bucket_Delete.
  destruct (db !! bytes_of bucket); simpl; [|done]. by rewrite lookup_insert_ne.
Qed.

(** What Get and List return for a bucket depends on that bucket only. *)
Lemma Get_local db1 db2 bucket key :
  db1 !! bytes_of bucket = db2 !! bytes_of bucket → Get db1 bucket key = Get db2 bucket key.
Proof. unfold Get, bolt.View, bolt.Tx_Bucket. by intros ->. Qed.

Lemma List_local db1 db2 bucket :
  db1 !! bytes_of bucket = db2 !! bytes_of bucket → List db1 bucket = List db2 bucket.
Proof. unfold List, bolt.View, bolt.Tx_Bucket. by intros ->. Qed.

(** X14.  A Set that bolt accepts returns nil and is read back by Get; a second
    Set of the same key replaces the value. *)
Theorem Set_then_Get db bucket key value value2 :
  bytes_of bucket ≠ [] →
  (0 < len (bytes_of key) ≤ bolt.MaxKeySize)%Z →
  (len value ≤ bolt.MaxValueSize)%Z → (len value2 ≤ bolt.MaxValueSize)%Z →
  (Set_ db bucket key value).2 = None ∧
  Get (Set_ db bucket key value).1 bucket key = (Some value, None) ∧
  Get (Set_ (Set_ db bucket key value).1 bucket key value2).1 bucket key = (Some value2, None).
Proof.
  intros Hname Hkey Hv Hv2.
  destruct (Get_Set db bucket key value Hname Hkey Hv) as [He Hg].
  split_and!; [done|done|].
  by destruct (Get_Set (Set_ db bucket key value).1 bucket key value2 Hname Hkey Hv2).
Qed.

Lemma Set_then_Get_witness :
  bytes_of "users" ≠ [] ∧
  (0 < len (bytes_of "user1") ≤ bolt.MaxKeySize)%Z ∧
  (len (bytes_of "John Doe") ≤ bolt.MaxValueSize)%Z ∧
  (len (bytes_of "Jane Smith") ≤ bolt.MaxValueSize)%Z ∧
  (Set_ ∅ "users" "user1" (bytes_of "John Doe")).2 = None ∧
  Get (Set_ ∅ "users" "user1" (bytes_of "John Doe")).1 "users" "user1"
    = (Some (bytes_of "John Doe"), None).
Proof.
  assert (bytes_of "users" ≠ []) as Hname by discriminate.
  assert (0 < len (bytes_of "user1") ≤ bolt.MaxKeySize)%Z as Hkey
    by (unfold len, bolt.MaxKeySize; simpl; lia).
  assert (len (bytes_of "John Doe") ≤ bolt.MaxValueSize)%Z as Hv
    by (unfold len, bolt.MaxValueSize; simpl; lia).
  assert (len (bytes_of "Jane Smith") ≤ bolt.MaxValueSize)%Z as Hv2
    by (unfold len, bolt.MaxValueSize; simpl; lia).
  split; [exact Hname|]. split; [exact Hkey|]. split; [exact Hv|]. split; [exact Hv2|].
  pose proof (Set_then_Get ∅ "users" "user1" _ _ Hname Hkey Hv Hv2) as H.
  exact (conj (proj1 H) (proj1 (proj2 H))).
Defined.

(** X15.  Set, whether it succeeds or fails, changes what Get returns for no
    other bucket and for no other key of its bucket. *)
Theorem Set_leaves_other_keys db bucket key value bucket' key' :
  (bucket', key') ≠ (bucket, key) →
  Get (Set_ db bucket key value).1 bucket' key' = Get db bucket' key'.
Proof.
  intros Hne. destruct (decide (bucket' = bucket)) as [->|Hb].
  - assert (bytes_of key' ≠ bytes_of key) as Hk.
    { intros Heq. apply bytes_of_inj in Heq. congruence. }
    unfold Set_, bolt.Batch, bolt.CreateBucketIfNotExists, bolt.Bucket_Put.
    unfold Get, bolt.View, bolt.Tx_Bucket, bolt.Bucket_Get.
    destruct (len (bytes_of bucket) =? 0)%Z;
      destruct (db !! bytes_of bucket) as [content|] eqn:Hdb; simpl;
      destruct (len (bytes_of key) =? 0)%Z;
      destruct (len (bytes_of key) >? bolt.MaxKeySize)%Z;
      destruct (len value >? bolt.MaxValueSize)%Z; simpl;
      rewrite ?Hdb, ?lookup_insert_eq; simpl;
      rewrite ?lookup_insert_eq; simpl;
      rewrite ?lookup_insert_ne, ?lookup_empty by done; done.
  - apply Get_local, Set_frame. intros Heq. by apply bytes_of_inj in Heq.
Qed.

Lemma Set_leaves_other_keys_witness :
  ("users", "user2") ≠ ("users", "user1") ∧
  Get (Set_ ∅ "users" "user1" (bytes_of "John Doe")).1 "users" "user2" = Get ∅ "users" "user2".
Proof.
  assert (("users", "user2") ≠ ("users", "user1")) as Hne by discriminate.
  split; [exact Hne|].
  exact (Set_leaves_other_keys ∅ "users" "user1" (bytes_of "John Doe") _ _ Hne).
Defined.

(** X16.  Set returns nil exactly when the bucket name is not empty, the key is
    not empty and not longer than bolt's MaxKeySize, and the value is not
    longer than MaxValueSize.  When it returns an error the database is as
    it was; a bucket created for the call is gone with the transaction. *)
Theorem Set_fails_on_bad_arguments db bucket key value :
  ((Set_ db bucket key value).2 = None ↔
     bytes_of bucket ≠ [] ∧
     (0 < len (bytes_of key) ≤ bolt.MaxKeySize)%Z ∧
     (len value ≤ bolt.MaxValueSize)%Z) ∧
  (bytes_of bucket = [] →
     Set_ db bucket key value = (db, Some ErrBucketNameRequired)) ∧
  (bytes_of bucket ≠ [] → bytes_of key = [] →
     Set_ db bucket key value = (db, Some ErrKeyRequired)) ∧
  ((Set_ db bucket key value).2 ≠ None → (Set_ db bucket key value).1 = db).
Proof.
  assert (∀ name : bytes, (len name =? 0)%Z = true ↔ name = []) as Hlen.
  { intros [|x name]; unfold len; simpl; split; try done; lia. }
  split_and!.
  - unfold Set_, bolt.Batch, bolt.CreateBucketIfNotExists, bolt.Bucket_Put.
    destruct (len (bytes_of bucket) =? 0)%Z eqn:E0.
    { apply Hlen in E0. simpl. split; [done|]. by intros [? _]. }
    assert (bytes_of bucket ≠ []) as Hname.
    { intros H. apply Hlen in H. congruence. }
    destruct (db !! bytes_of bucket); simpl;
      destruct (len (bytes_of key) =? 0)%Z eqn:E1;
      destruct (len (bytes_of key) >? bolt.MaxKeySize)%Z eqn:E2;
      destruct (len value >? bolt.MaxValueSize)%Z eqn:E3; simpl;
      (split; [try done | intros (_ & ? & ?); try done; try lia]);
      intros _; split_and!; try done; unfold len in *; lia.
  - intros Hname. unfold Set_, bolt.Batch, bolt.CreateBucketIfNotExists.
    by rewrite (proj2 (Hlen _) Hname).
  - intros Hname Hkey. unfold Set_, bolt.Batch, bolt.CreateBucketIfNotExists, bolt.Bucket_Put.
    destruct (len (bytes_of bucket) =? 0)%Z eqn:E0; [by apply Hlen in E0|].
    rewrite (proj2 (Hlen _) Hkey). by destruct (db !! bytes_of bucket).
  - unfold Set_. intros Herr.
    destruct (bolt.Batch db _).2 as [e|] eqn:He; [|done].
    by apply (Batch_rollback _ _ e).
Qed.

(** X17.  Delete on a bucket that exists returns nil, also when the key is not in
    the bucket; afterwards Get finds nothing under the key, and returns for
    every other key and every other bucket what it returned before. *)
Theorem Delete_removes_one_key db bucket key :
  is_Some (db !! bytes_of bucket) →
  (Delete db bucket key).2 = None ∧
  Get (Delete db bucket key).1 bucket key = (None, None) ∧
  ∀ bucket' key', (bucket', key') ≠ (bucket, key) →
    Get (Delete db bucket key).1 bucket' key' = Get db bucket' key'.
Proof.
  intros Hsome. destruct (Get_Delete db bucket key Hsome) as [He Hg].
  split_and!; [done|done|]. intros bucket' key' Hne.
  destruct (decide (bucket' = bucket)) as [->|Hb].
  - assert (bytes_of key' ≠ bytes_of key) as Hk.
    { intros Heq. apply bytes_of_inj in Heq. congruence. }
    destruct Hsome as [content Hdb].
    unfold Delete, Get, bolt.Batch, bolt.View, bolt.Tx_Bucket, bolt.Bucket_Delete,
      bolt.Bucket_Get.
    rewrite Hdb. cbn [fst snd default].
    rewrite lookup_insert_eq. by rewrite lookup_delete_ne.
  - apply Get_local, Delete_frame. intros Heq. by apply bytes_of_inj in Heq.
Qed.

Lemma Delete_removes_one_key_witness :
  is_Some ((Set_ ∅ "users" "user1" (bytes_of "John Doe")).1 !! bytes_of "users") ∧
  (Delete (Set_ ∅ "users" "user1" (bytes_of "John Doe")).1 "users" "user1").2 = None ∧
  Get (Delete (Set_ ∅ "users" "user1" (bytes_of "John Doe")).1 "users" "user1").1
      "users" "user1" = (None, None).
Proof.
  assert (is_Some ((Set_ ∅ "users" "user1" (bytes_of "John Doe")).1 !! bytes_of "users"))
    as Hsome.
  { eexists. reflexivity. }
  split; [exact Hsome|].
  pose proof (Delete_removes_one_key _ "users" "user1" Hsome) as H.
  exact (conj (proj1 H) (proj1 (proj2 H))).
Defined.

(** ** A batch with one Set *)

Lemma single_Set_batch bucket key value :
  Add NewBoltBatch (mkWriteOperation (bytes_of bucket) (bytes_of key) (Some value) OpSet) =
    ({| ops := {[bucket :=
                   [mkWriteOperation (bytes_of bucket) (bytes_of key) (Some value) OpSet]]} |},
     None).
Proof.
  rewrite Add_below.
  - unfold ops_at, NewBoltBatch. simpl.
    by rewrite string_of_bytes_of, lookup_empty, insert_empty.
  - unfold len_map, NewBoltBatch. simpl. rewrite map_size_empty.
    unfold MAX_SEQUENTIAL_OPERATIONS. lia.
Qed.

Lemma range_order_singleton b k l order :
  ops b = {[k := l]} → range_order b order → order = [(k, l)].
Proof.
  unfold range_order. intros ->. rewrite map_to_list_singleton.
  intros H. by apply Permutation_singleton_r in H.
Qed.

(** X18.  A new batch to which one Set was added executes as the Set of the store
    adapter does: the same database and the same result, error or not. *)
Theorem Execute_single_Set_is_Set db bucket key value b order :
  Add NewBoltBatch (mkWriteOperation (bytes_of bucket) (bytes_of key) (Some value) OpSet)
    = (b, None) →
  range_order b order →
  Execute order b db = (b, (Set_ db bucket key value).1, (Set_ db bucket key value).2).
Proof.
  rewrite single_Set_batch. intros [= <-] Hord.
  rewrite (range_order_singleton _ bucket _ order (eq_refl : ops (mkBoltBatch _) = _) Hord).
  unfold Execute. simpl. rewrite <- Set_is_bucketTx.
  by destruct (Set_ db bucket key value) as [db' [e|]].
Qed.

Lemma Execute_single_Set_is_Set_witness :
  Add NewBoltBatch
      (mkWriteOperation (bytes_of "users") (bytes_of "user1") (Some (bytes_of "John Doe")) OpSet)
    = ({| ops := {["users" := [opSet "users" "user1" "John Doe"]]} |}, None) ∧
  range_order {| ops := {["users" := [opSet "users" "user1" "John Doe"]]} |}
              [("users", [opSet "users" "user1" "John Doe"])] ∧
  Execute [("users", [opSet "users" "user1" "John Doe"])]
          {| ops := {["users" := [opSet "users" "user1" "John Doe"]]} |} ∅ =
    ({| ops := {["users" := [opSet "users" "user1" "John Doe"]]} |},
     (Set_ ∅ "users" "user1" (bytes_of "John Doe")).1,
     (Set_ ∅ "users" "user1" (bytes_of "John Doe")).2).
Proof.
  assert (Add NewBoltBatch
            (mkWriteOperation (bytes_of "users") (bytes_of "user1")
                              (Some (bytes_of "John Doe")) OpSet)
          = ({| ops := {["users" := [opSet "users" "user1" "John Doe"]]} |}, None)) as Hadd
    by reflexivity.
  assert (range_order {| ops := {["users" := [opSet "users" "user1" "John Doe"]]} |}
                      [("users", [opSet "users" "user1" "John Doe"])]) as Hord
    by (unfold range_order; reflexivity).
  split; [exact Hadd|]. split; [exact Hord|].
  exact (Execute_single_Set_is_Set ∅ "users" "user1" _ _ _ Hadd Hord).
Defined.

(** ** The bucket wrapper *)

Lemma ForEach_local {S : Type} db1 db2 bucket (fn : S → bytes → bytes → S * option error) st :
  db1 !! bytes_of bucket = db2 !! bytes_of bucket →
  ForEach db1 bucket fn st = ForEach db2 bucket fn st.
Proof. unfold ForEach, bolt.View, bolt.Tx_Bucket. by intros ->. Qed.

(** X19.  Two wrappers for different buckets do not see each other's writes: a
    Set or a Delete through one leaves what Get, List and ForEach (with any
    callback, over any state) return through the other as it was. *)
Theorem BoltDBWrapper_buckets_are_isolated w1 w2 db key value :
  bucketName w1 ≠ bucketName w2 →
  (∀ k, BoltDBWrapper_Get w2 (BoltDBWrapper_Set w1 db key value).1 k
        = BoltDBWrapper_Get w2 db k) ∧
  (∀ k, BoltDBWrapper_Get w2 (BoltDBWrapper_Delete w1 db key).1 k
        = BoltDBWrapper_Get w2 db k) ∧
  BoltDBWrapper_List w2 (BoltDBWrapper_Set w1 db key value).1 = BoltDBWrapper_List w2 db ∧
  BoltDBWrapper_List w2 (BoltDBWrapper_Delete w1 db key).1 = BoltDBWrapper_List w2 db ∧
  (∀ (S : Type) (fn : S → bytes → bytes → S * option error) st,
     BoltDBWrapper_ForEach w2 (BoltDBWrapper_Set w1 db key value).1 fn st
     = BoltDBWrapper_ForEach w2 db fn st) ∧
  (∀ (S : Type) (fn : S → bytes → bytes → S * option error) st,
     BoltDBWrapper_ForEach w2 (BoltDBWrapper_Delete w1 db key).1 fn st
     = BoltDBWrapper_ForEach w2 db fn st).
Proof.
  intros Hne.
  assert (bytes_of (bucketName w2) ≠ bytes_of (bucketName w1)) as Hb.
  { intros Heq. apply bytes_of_inj in Heq. congruence. }
  unfold BoltDBWrapper_Get, BoltDBWrapper_Set, BoltDBWrapper_Delete, BoltDBWrapper_List,
    BoltDBWrapper_ForEach.
  split_and!.
  - intros k. by apply Get_local, Set_frame.
  - intros k. by apply Get_local, Delete_frame.
  - by apply List_local, Set_frame.
  - by apply List_local, Delete_frame.
  - intros S fn st. by apply ForEach_local, Set_frame.
  - intros S fn st. by apply ForEach_local, Delete_frame.
Qed.

Lemma BoltDBWrapper_buckets_are_isolated_witness :
  bucketName (NewBoltDBWrapper "users") ≠ bucketName (NewBoltDBWrapper "orders") ∧
  (∀ k, BoltDBWrapper_Get (NewBoltDBWrapper "orders")
          (BoltDBWrapper_Set (NewBoltDBWrapper "users")
             {[bytes_of "users" := {[bytes_of "user1" := bytes_of "Jane Doe"]};
               bytes_of "orders" := {[bytes_of "o1" := bytes_of "X"]}]}
             "user1" (bytes_of "John Doe")).1 k
        = BoltDBWrapper_Get (NewBoltDBWrapper "orders")
            {[bytes_of "users" := {[bytes_of "user1" := bytes_of "Jane Doe"]};
              bytes_of "orders" := {[bytes_of "o1" := bytes_of "X"]}]} k) ∧
  (∀ (S : Type) (fn : S → bytes → bytes → S * option error) st,
     BoltDBWrapper_ForEach (NewBoltDBWrapper "orders")
       (BoltDBWrapper_Delete (NewBoltDBWrapper "users")
          {[bytes_of "users" := {[bytes_of "user1" := bytes_of "Jane Doe"]};
            bytes_of "orders" := {[bytes_of "o1" := bytes_of "X"]}]}
          "user1").1 fn st
     = BoltDBWrapper_ForEach (NewBoltDBWrapper "orders")
         {[bytes_of "users" := {[bytes_of "user1" := bytes_of "Jane Doe"]};
           bytes_of "orders" := {[bytes_of "o1" := bytes_of "X"]}]} fn st).
Proof.
  assert (bucketName (NewBoltDBWrapper "users") ≠ bucketName (NewBoltDBWrapper "orders"))
    as Hne by discriminate.
  pose proof (BoltDBWrapper_buckets_are_isolated (NewBoltDBWrapper "users")
                (NewBoltDBWrapper "orders")
                {[bytes_of "users" := {[bytes_of "user1" := bytes_of "Jane Doe"]};
                  bytes_of "orders" := {[bytes_of "o1" := bytes_of "X"]}]}
                "user1" (bytes_of "John Doe") Hne) as H.
  split; [exact Hne|]. split; [exact (proj1 H)|].
  exact (proj2 (proj2 (proj2 (proj2 (proj2 H))))).
Defined.

(** X20.  What is written through a wrapper is read back through it, through any
    other wrapper for the same bucket, and through the database under the
    wrapper's bucket name. *)
Theorem BoltDBWrapper_Set_then_Get w1 w2 db key value :
  bucketName w1 = bucketName w2 →
  bytes_of (bucketName w1) ≠ [] →
  (0 < len (bytes_of key) ≤ bolt.MaxKeySize)%Z →
  (len value ≤ bolt.MaxValueSize)%Z →
  (BoltDBWrapper_Set w1 db key value).2 = None ∧
  BoltDBWrapper_Get w1 (BoltDBWrapper_Set w1 db key value).1 key = (Some value, None) ∧
  BoltDBWrapper_Get w2 (BoltDBWrapper_Set w1 db key value).1 key = (Some value, None) ∧
  Get (BoltDBWrapper_Set w1 db key value).1 (bucketName w1) key = (Some value, None).
Proof.
  intros Hsame Hname Hkey Hv.
  unfold BoltDBWrapper_Get, BoltDBWrapper_Set. rewrite <- Hsame.
  destruct (Get_Set db (bucketName w1) key value Hname Hkey Hv) as [He Hg]. done.
Qed.

Lemma BoltDBWrapper_Set_then_Get_witness :
  bucketName (NewBoltDBWrapper "users") = bucketName (NewBoltDBWrapper "users") ∧
  bytes_of (bucketName (NewBoltDBWrapper "users")) ≠ [] ∧
  (0 < len (bytes_of "user1") ≤ bolt.MaxKeySize)%Z ∧
  (len (bytes_of "John Doe") ≤ bolt.MaxValueSize)%Z ∧
  BoltDBWrapper_Get (NewBoltDBWrapper "users")
    (BoltDBWrapper_Set (NewBoltDBWrapper "users") ∅ "user1" (bytes_of "John Doe")).1 "user1"
    = (Some (bytes_of "John Doe"), None).
Proof.
  assert (bytes_of (bucketName (NewBoltDBWrapper "users")) ≠ []) as Hname by discriminate.
  assert (0 < len (bytes_of "user1") ≤ bolt.MaxKeySize)%Z as Hkey
    by (unfold len, bolt.MaxKeySize; simpl; lia).
  assert (len (bytes_of "John Doe") ≤ bolt.MaxValueSize)%Z as Hv
    by (unfold len, bolt.MaxValueSize; simpl; lia).
  split; [reflexivity|]. split; [exact Hname|]. split; [exact Hkey|]. split; [exact Hv|].
  exact (proj1 (proj2 (BoltDBWrapper_Set_then_Get (NewBoltDBWrapper "users")
                         (NewBoltDBWrapper "users") ∅ "user1" _ eq_refl Hname Hkey Hv))).
Defined.

(** X21.  The batch a wrapper hands out is not bound to the wrapper's bucket: it
    accepts a Set for another bucket, and Execute then writes that bucket
    as the Set of the store adapter would, leaving the wrapper's own bucket
    as it was. *)
Theorem BoltDBWrapper_NewBatch_is_not_scoped w db other key value b order :
  other ≠ bucketName w →
  Add (BoltDBWrapper_NewBatch w)
      (mkWriteOperation (bytes_of other) (bytes_of key) (Some value) OpSet) = (b, None) →
  range_order b order →
  Execute order b db = (b, (Set_ db other key value).1, (Set_ db other key value).2) ∧
  (∀ k, BoltDBWrapper_Get w (Set_ db other key value).1 k = BoltDBWrapper_Get w db k) ∧
  BoltDBWrapper_List w (Set_ db other key value).1 = BoltDBWrapper_List w db.
Proof.
  intros Hother. unfold BoltDBWrapper_NewBatch, NewBatch. rewrite single_Set_batch.
  intros [= <-] Hord.
  assert (bytes_of (bucketName w) ≠ bytes_of other) as Hb.
  { intros Heq. apply bytes_of_inj in Heq. congruence. }
  split_and!.
  - rewrite (range_order_singleton _ other _ order (eq_refl : ops (mkBoltBatch _) = _) Hord).
    unfold Execute. simpl. rewrite <- Set_is_bucketTx.
    by destruct (Set_ db other key value) as [db' [e|]].
  - intros k. unfold BoltDBWrapper_Get. by apply Get_local, Set_frame.
  - unfold BoltDBWrapper_List. by apply List_local, Set_frame.
Qed.

Lemma BoltDBWrapper_NewBatch_is_not_scoped_witness :
  "orders" ≠ bucketName (NewBoltDBWrapper "users") ∧
  Add (BoltDBWrapper_NewBatch (NewBoltDBWrapper "users"))
      (mkWriteOperation (bytes_of "orders") (bytes_of "o1") (Some (bytes_of "X")) OpSet)
    = ({| ops := {["orders" := [opSet "orders" "o1" "X"]]} |}, None) ∧
  range_order {| ops := {["orders" := [opSet "orders" "o1" "X"]]} |}
              [("orders", [opSet "orders" "o1" "X"])] ∧
  Execute [("orders", [opSet "orders" "o1" "X"])]
          {| ops := {["orders" := [opSet "orders" "o1" "X"]]} |} ∅ =
    ({| ops := {["orders" := [opSet "orders" "o1" "X"]]} |},
     (Set_ ∅ "orders" "o1" (bytes_of "X")).1, (Set_ ∅ "orders" "o1" (bytes_of "X")).2).
Proof.
  assert ("orders" ≠ bucketName (NewBoltDBWrapper "users")) as Hother by discriminate.
  assert (Add (BoltDBWrapper_NewBatch (NewBoltDBWrapper "users"))
            (mkWriteOperation (bytes_of "orders") (bytes_of "o1") (Some (bytes_of "X")) OpSet)
          = ({| ops := {["orders" := [opSet "orders" "o1" "X"]]} |}, None)) as Hadd
    by reflexivity.
  assert (range_order {| ops := {["orders" := [opSet "orders" "o1" "X"]]} |}
                      [("orders", [opSet "orders" "o1" "X"])]) as Hord
    by (unfold range_order; reflexivity).
  split; [exact Hother|]. split; [exact Hadd|]. split; [exact Hord|].
  exact (proj1 (BoltDBWrapper_NewBatch_is_not_scoped (NewBoltDBWrapper "users") ∅
                  "orders" "o1" (bytes_of "X") _ _ Hother Hadd Hord)).
Defined.

(** ** The factory *)

Lemma factory_Unlock_free f : factory.lck f = false → factory.Unlock f = f.
Proof. destruct f as [l m]. simpl. by intros ->. Qed.

(** X22.  NewBoltFactory tests the database pointer where it means to test an
    error: when the database opens it returns no factory and the "could not
    open" error, and when the database does not open it returns a factory
    that holds a nil database under the name, on which Close panics. *)
Theorem NewBoltFactory_returns_error_when_open_succeeds env name path :
  (factory.open_ok env path = true →
     factory.NewBoltFactory env name path =
       (None, Some (factory.ErrCouldNotOpen name (factory.mkBoltDatabase path)))) ∧
  (factory.open_ok env path = false →
     ∃ f, factory.NewBoltFactory env name path = (Some f, None) ∧
          factory.lck f = false ∧
          factory.databases f = {[name := None]} ∧
          factory.Get f name = factory.Returns (None, None) ∧
          factory.Close env f name = factory.Panics).
Proof.
  unfold factory.NewBoltFactory, factory.at_name, factory.NewBoltDatabase.
  rewrite lookup_insert_eq. simpl. split; intros ->; [done|].
  eexists. split; [done|]. rewrite insert_empty. split_and!; [done|done| |].
  - unfold factory.Get, factory.RLock. simpl. by rewrite lookup_singleton_eq.
  - unfold factory.Close, factory.Lock. simpl. by rewrite lookup_singleton_eq.
Qed.

(** X23.  Open never returns an error: it stores what opening the path gave, a
    database or nil, under the name, replacing what was there, and returns
    it; Get then returns the same for that name and what it returned before
    for every other name.  The mutex is free again afterwards. *)
Theorem Open_then_Get env f name path :
  factory.lck f = false →
  ∃ f', factory.Open env f name path =
          factory.Returns (f', factory.NewBoltDatabase env path, None) ∧
        factory.lck f' = false ∧
        factory.Get f' name = factory.Returns (factory.NewBoltDatabase env path, None) ∧
        ∀ other, other ≠ name → factory.Get f' other = factory.Get f other.
Proof.
  intros Hfree. unfold factory.Open, factory.Lock, factory.at_name. rewrite Hfree. simpl.
  rewrite lookup_insert_eq. simpl. eexists. split; [done|]. split_and!; [done| |].
  - unfold factory.Get, factory.RLock. simpl. by rewrite lookup_insert_eq.
  - intros other Hne. unfold factory.Get, factory.RLock. rewrite Hfree. simpl.
    by rewrite lookup_insert_ne.
Qed.

Lemma Open_then_Get_witness :
  factory.lck (factory.mkBoltFactory false ∅) = false ∧
  ∃ f', factory.Open sample_env
                     (factory.mkBoltFactory false ∅) "users" "./users.db" =
          factory.Returns
            (f', factory.NewBoltDatabase sample_env "./users.db",
             None) ∧
        factory.lck f' = false ∧
        factory.Get f' "users" =
          factory.Returns
            (factory.NewBoltDatabase sample_env "./users.db",
             None) ∧
        ∀ other, other ≠ "users" →
          factory.Get f' other = factory.Get (factory.mkBoltFactory false ∅) other.
Proof.
  split; [reflexivity|].
  exact (Open_then_Get sample_env
           (factory.mkBoltFactory false ∅) "users" "./users.db" eq_refl).
Defined.

(** X24.  Close of a name whose database closes without error removes the name:
    Get then reports it as not found, the other names are as before, and
    the mutex is free again. *)
Theorem Close_removes_the_database env f name d :
  factory.lck f = false →
  factory.databases f !! name = Some (Some d) →
  factory.close_err env d = None →
  ∃ f', factory.Close env f name = factory.Returns (f', None) ∧
        factory.lck f' = false ∧
        factory.Get f' name = factory.Returns (None, Some (factory.ErrDatabaseNotFound name)) ∧
        ∀ other, other ≠ name → factory.Get f' other = factory.Get f other.
Proof.
  intros Hfree Hname Hclose. unfold factory.Close, factory.Lock. rewrite Hfree. simpl.
  rewrite Hname, Hclose. eexists. split; [done|]. split_and!; [done| |].
  - unfold factory.Get, factory.RLock. simpl. by rewrite lookup_delete_eq.
  - intros other Hne. unfold factory.Get, factory.RLock. rewrite Hfree. simpl.
    by rewrite lookup_delete_ne.
Qed.

Lemma Close_removes_the_database_witness :
  factory.lck sample_factory = false ∧
  factory.databases sample_factory !! "users"
    = Some (Some (factory.mkBoltDatabase "./users.db")) ∧
  factory.close_err sample_env
                    (factory.mkBoltDatabase "./users.db") = None ∧
  ∃ f', factory.Close sample_env
          sample_factory "users"
        = factory.Returns (f', None) ∧
        factory.lck f' = false ∧
        factory.Get f' "users" =
          factory.Returns (None, Some (factory.ErrDatabaseNotFound "users")) ∧
        ∀ other, other ≠ "users" →
          factory.Get f' other =
          factory.Get sample_factory other.
Proof.
  split; [reflexivity|]. split; [reflexivity|]. split; [reflexivity|].
  exact (Close_removes_the_database sample_env
           sample_factory
           "users" (factory.mkBoltDatabase "./users.db") eq_refl eq_refl eq_refl).
Defined.

(** X25.  Close leaves the factory as it was when it does not succeed: for a name
    the factory does not have it returns "not found", for a database whose
    Close returns an error it returns that error and keeps the name; for a
    name that holds a nil database it panics. *)
Theorem Close_failure_keeps_the_factory env f name :
  factory.lck f = false →
  (factory.databases f !! name = None →
     factory.Close env f name = factory.Returns (f, Some (factory.ErrDatabaseNotFound name))) ∧
  (∀ d e, factory.databases f !! name = Some (Some d) → factory.close_err env d = Some e →
     factory.Close env f name = factory.Returns (f, Some e)) ∧
  (factory.databases f !! name = Some None → factory.Close env f name = factory.Panics).
Proof.
  intros Hfree. pose proof (factory_Unlock_free f Hfree) as Hunlock.
  unfold factory.Close, factory.Lock. rewrite Hfree. simpl.
  unfold factory.Unlock in *. simpl. split_and!.
  - intros ->. by rewrite Hunlock.
  - intros d e -> ->. by rewrite Hunlock.
  - by intros ->.
Qed.

Lemma Close_failure_keeps_the_factory_witness :
  factory.lck (factory.mkBoltFactory false ∅) = false ∧
  (factory.databases (factory.mkBoltFactory false ∅) !! "users" = None →
   factory.Close sample_env (factory.mkBoltFactory false ∅) "users"
   = factory.Returns (factory.mkBoltFactory false ∅, Some (factory.ErrDatabaseNotFound "users"))).
Proof.
  split; [reflexivity|].
  exact (proj1 (Close_failure_keeps_the_factory sample_env
                  (factory.mkBoltFactory false ∅) "users" eq_refl)).
Defined.

(** X26.  CloseAll takes the mutex and then calls Close, which waits for the same
    mutex: on a factory that holds a name it never returns and closes
    nothing.  It returns, with nil, only on a factory without names. *)
Theorem CloseAll_blocks_unless_empty env order f :
  factory.lck f = false →
  factory.range_names f order →
  (factory.databases f = ∅ → factory.CloseAll env order f = factory.Returns (f, None)) ∧
  (factory.databases f ≠ ∅ → factory.CloseAll env order f = factory.Blocks).
Proof.
  intros Hfree Hord. unfold factory.CloseAll, factory.Lock. rewrite Hfree. split.
  - intros Hempty. unfold factory.range_names in Hord.
    rewrite Hempty, map_to_list_empty in Hord. apply Permutation_nil_r in Hord as ->.
    simpl. unfold factory.Unlock. simpl. by rewrite <- (factory_Unlock_free f Hfree) at 2.
  - intros Hne. destruct order as [|name rest].
    + unfold factory.range_names in Hord. symmetry in Hord.
      apply Permutation_nil_r in Hord. apply fmap_nil_inv in Hord.
      by apply map_to_list_empty_iff in Hord.
    + simpl. unfold factory.Close, factory.Lock. simpl. done.
Qed.

Lemma CloseAll_blocks_unless_empty_witness :
  factory.lck sample_factory = false ∧
  factory.range_names sample_factory ["users"] ∧
  (factory.databases sample_factory ≠ ∅ →
   factory.CloseAll sample_env ["users"]
     sample_factory
   = factory.Blocks).
Proof.
  assert (factory.range_names sample_factory ["users"]) as Hord.
  { unfold factory.range_names. simpl. by rewrite map_to_list_singleton. }
  split; [reflexivity|]. split; [exact Hord|].
  exact (proj2 (CloseAll_blocks_unless_empty sample_env ["users"] sample_factory
                  eq_refl Hord)).
Defined.

(** X27.  GetDatabases returns, without an error, every name the factory holds,
    each once: a name is in the list exactly when Get finds it. *)
Theorem GetDatabases_lists_the_names order f :
  factory.lck f = false →
  factory.range_names f order →
  ∃ names, factory.GetDatabases order f = factory.Returns (names, None) ∧
           NoDup names ∧
           ∀ name, name ∈ names ↔ ∃ d, factory.Get f name = factory.Returns (d, None).
Proof.
  intros Hfree Hord. unfold factory.GetDatabases, factory.RLock. rewrite Hfree.
  assert (∀ (l acc : list string), foldl (λ databases name, databases ++ [name]) acc l = acc ++ l)
    as Hfold.
  { induction l as [|x l IH]; intros acc; simpl; [by rewrite app_nil_r|].
    rewrite IH. by rewrite <- app_assoc. }
  rewrite Hfold. simpl. exists order. split; [done|].
  unfold factory.range_names in Hord. split.
  - rewrite Hord. apply NoDup_fst_map_to_list.
  - intros name. rewrite Hord. unfold factory.Get, factory.RLock. rewrite Hfree.
    rewrite list_elem_of_fmap. split.
    + intros ([k d] & -> & Hin). apply elem_of_map_to_list in Hin. simpl.
      exists d. by rewrite Hin.
    + intros [d Hget]. destruct (factory.databases f !! name) as [d'|] eqn:Hd; [|done].
      exists (name, d'). split; [done|]. by apply elem_of_map_to_list.
Qed.

Lemma GetDatabases_lists_the_names_witness :
  factory.lck sample_factory = false ∧
  factory.range_names sample_factory ["users"] ∧
  ∃ names,
    factory.GetDatabases ["users"]
      sample_factory
    = factory.Returns (names, None) ∧
    NoDup names ∧
    ∀ name, name ∈ names ↔
      ∃ d, factory.Get sample_factory name
           = factory.Returns (d, None).
Proof.
  assert (factory.range_names sample_factory ["users"]) as Hord.
  { unfold factory.range_names. simpl. by rewrite map_to_list_singleton. }
  split; [reflexivity|]. split; [exact Hord|].
  exact (GetDatabases_lists_the_names ["users"] sample_factory eq_refl Hord).
Defined.

(** ** How the calls compose *)

(** X28.  After a Set that bolt accepts, List of the bucket has the value under
    the key and Buckets names the bucket. *)
Theorem Set_shows_in_List_and_Buckets db bucket key value :
  bytes_of bucket ≠ [] →
  (0 < len (bytes_of key) ≤ bolt.MaxKeySize)%Z →
  (len value ≤ bolt.MaxValueSize)%Z →
  ∃ m names,
    List (Set_ db bucket key value).1 bucket = (Some m, None) ∧
    m !! key = Some value ∧
    Buckets (Set_ db bucket key value).1 = Some names ∧
    bucket ∈ names.
Proof.
  intros Hname Hkey Hv.
  destruct (Get_Set db bucket key value Hname Hkey Hv) as [_ Hget].
  unfold Get, bolt.View, bolt.Tx_Bucket, bolt.Bucket_Get in Hget.
  destruct ((Set_ db bucket key value).1 !! bytes_of bucket) as [content|] eqn:Hdb; [|done].
  injection Hget as Hcontent.
  unfold List, Buckets, bolt.View, bolt.Tx_Bucket, bolt.Bucket_ForEach, bolt.Tx_ForEach.
  rewrite Hdb, forEach_loop_total, forEach_loop_names. simpl.
  eexists _, _. split_and!; [done| |done|].
  - rewrite (foldl_insert_lookup _ _ _ (cursor_order_NoDup content)), cursor_order_to_map.
    by rewrite Hcontent.
  - apply list_elem_of_fmap. exists (bytes_of bucket).
    split; [by rewrite string_of_bytes_of|].
    apply list_elem_of_fmap. exists (bytes_of bucket, content). split; [done|].
    by apply cursor_order_elem.
Qed.

Lemma Set_shows_in_List_and_Buckets_witness :
  bytes_of "users" ≠ [] ∧
  (0 < len (bytes_of "user1") ≤ bolt.MaxKeySize)%Z ∧
  (len (bytes_of "John Doe") ≤ bolt.MaxValueSize)%Z ∧
  ∃ m names,
    List (Set_ ∅ "users" "user1" (bytes_of "John Doe")).1 "users" = (Some m, None) ∧
    m !! "user1" = Some (bytes_of "John Doe") ∧
    Buckets (Set_ ∅ "users" "user1" (bytes_of "John Doe")).1 = Some names ∧
    "users" ∈ names.
Proof.
  assert (bytes_of "users" ≠ []) as Hname by discriminate.
  assert (0 < len (bytes_of "user1") ≤ bolt.MaxKeySize)%Z as Hkey
    by (unfold len, bolt.MaxKeySize; simpl; lia).
  assert (len (bytes_of "John Doe") ≤ bolt.MaxValueSize)%Z as Hv
    by (unfold len, bolt.MaxValueSize; simpl; lia).
  split; [exact Hname|]. split; [exact Hkey|]. split; [exact Hv|].
  exact (Set_shows_in_List_and_Buckets ∅ "users" "user1" _ Hname Hkey Hv).
Defined.

(** X29.  The first operation of a partition, when it is a Set that bolt accepts,
    can be read back with Get after ExecuteConcurrent, whatever the other
    partitions' transactions returned, and after an Execute that returned
    nil. *)
Theorem head_Set_is_readable_after_a_run b order db k op rest v :
  range_order b order →
  ops b !! k = Some (op :: rest) →
  bytes_of k ≠ [] →
  Op op = OpSet → Value op = Some v →
  (0 < len (Key op) ≤ bolt.MaxKeySize)%Z → (len v ≤ bolt.MaxValueSize)%Z →
  (∀ b' db' err, ExecuteConcurrent order b db (b', db', err) →
     Get db' k (string_of (Key op)) = (Some v, None)) ∧
  (∀ b' db', Execute order b db = (b', db', None) →
     Get db' k (string_of (Key op)) = (Some v, None)).
Proof.
  intros Hord Hk Hname Hset Hval Hkey Hv.
  assert (valid_op op) as Hvalid by (left; eauto).
  pose proof (bucketTx_head db k op rest Hname Hvalid) as Htx.
  assert (∀ db' : bolt.DB,
            db' !! bytes_of k = (bucketTx db k (op :: rest)).1 !! bytes_of k →
            Get db' k (string_of (Key op)) = (Some v, None)) as Hread.
  { intros db' Hdb'. unfold Get, bolt.View, bolt.Tx_Bucket, bolt.Bucket_Get.
    rewrite Hdb', Htx. cbn [fst]. rewrite lookup_insert_eq, bytes_of_string_of.
    unfold apply_ops, apply_op. simpl.
    destruct (decide (Op op = OpSet)); [|done]. rewrite Hval. by rewrite lookup_insert_eq. }
  apply (range_order_elem b order k _ Hord) in Hk. split.
  - intros b' db' err Hres. apply Hread.
    destruct (ExecuteConcurrent_outcome _ _ _ _ _ _ Hord Hres) as (_ & Hown & _).
    by apply Hown.
  - intros b' db'. unfold Execute.
    destruct (Execute_loop order db) as [db1 err] eqn:Hloop. intros [= <- <- ->].
    apply Hread.
    destruct (Execute_loop_committed order db db1 (range_order_NoDup _ _ Hord) Hloop)
      as [Hc _].
    by apply Hc.
Qed.

Lemma head_Set_is_readable_after_a_run_witness :
  range_order scenario (map_to_list (ops scenario)) ∧
  ops scenario !! "users" = Some (opSet "users" "u1" "A" :: [opSet "users" "u1" "B"]) ∧
  bytes_of "users" ≠ [] ∧
  Op (opSet "users" "u1" "A") = OpSet ∧
  Value (opSet "users" "u1" "A") = Some (bytes_of "A") ∧
  (0 < len (Key (opSet "users" "u1" "A")) ≤ bolt.MaxKeySize)%Z ∧
  (len (bytes_of "A") ≤ bolt.MaxValueSize)%Z ∧
  ∀ b' db', Execute (map_to_list (ops scenario)) scenario ∅ = (b', db', None) →
    Get db' "users" (string_of (Key (opSet "users" "u1" "A"))) = (Some (bytes_of "A"), None).
Proof.
  assert (range_order scenario (map_to_list (ops scenario))) as Hord
    by (unfold range_order; reflexivity).
  assert (ops scenario !! "users" = Some (opSet "users" "u1" "A" :: [opSet "users" "u1" "B"]))
    as Hk by reflexivity.
  assert (bytes_of "users" ≠ []) as Hname by discriminate.
  assert (0 < len (Key (opSet "users" "u1" "A")) ≤ bolt.MaxKeySize)%Z as Hkey
    by (unfold len, bolt.MaxKeySize; simpl; lia).
  assert (len (bytes_of "A") ≤ bolt.MaxValueSize)%Z as Hv
    by (unfold len, bolt.MaxValueSize; simpl; lia).
  split; [exact Hord|]. split; [exact Hk|]. split; [exact Hname|].
  split; [reflexivity|]. split; [reflexivity|]. split; [exact Hkey|]. split; [exact Hv|].
  exact (proj2 (head_Set_is_readable_after_a_run scenario _ ∅ "users" _ _ _
                  Hord Hk Hname eq_refl eq_refl Hkey Hv)).
Defined.

(** X30.  Whatever Execute and ExecuteConcurrent return, a bucket that no
    partition of the batch names is as it was, and so is what Get and List
    return for it. *)
Theorem runs_leave_other_buckets other b order db :
  range_order b order →
  ops b !! other = None →
  (∀ b' db' err, Execute order b db = (b', db', err) ∨
                 ExecuteConcurrent order b db (b', db', err) →
     db' !! bytes_of other = db !! bytes_of other ∧
     (∀ key, Get db' other key = Get db other key) ∧
     List db' other = List db other).
Proof.
  intros Hord Hother b' db' err Hrun.
  assert (∀ k l, (k, l) ∈ order → bytes_of other ≠ bytes_of k) as Hn.
  { intros k l Hin Heq. apply bytes_of_inj in Heq as <-.
    apply (range_order_elem b order other l Hord) in Hin. congruence. }
  assert (db' !! bytes_of other = db !! bytes_of other) as Hsame.
  { destruct Hrun as [Hseq|Hconc].
    - unfold Execute in Hseq.
      destruct (Execute_loop order db) as [db1 err1] eqn:Hloop. injection Hseq as <- <- <-.
      pose proof (range_order_NoDup _ _ Hord) as Hnd.
      destruct err1 as [e|].
      + destruct (Execute_loop_error _ _ _ _ Hloop) as (pre & k & l & post & -> & Hpre & _).
        assert (NoDup pre.*1) as Hndpre.
        { rewrite fmap_app in Hnd. by apply NoDup_app in Hnd as [? _]. }
        destruct (Execute_loop_committed pre db db1 Hndpre Hpre) as [_ Hf].
        apply Hf. intros k' l' Hin. apply (Hn k' l'). apply elem_of_app. by left.
      + destruct (Execute_loop_committed order db db1 Hnd Hloop) as [_ Hf]. by apply Hf.
    - destruct (ExecuteConcurrent_outcome _ _ _ _ _ _ Hord Hconc) as (_ & _ & Hf & _).
      by apply Hf. }
  split_and!; [done| |].
  - intros key. by apply Get_local.
  - by apply List_local.
Qed.

Lemma runs_leave_other_buckets_witness :
  range_order faulty (map_to_list (ops faulty)) ∧
  ops faulty !! "users" = None ∧
  ∀ b' db' err,
    Execute (map_to_list (ops faulty)) faulty ∅ = (b', db', err) ∨
    ExecuteConcurrent (map_to_list (ops faulty)) faulty ∅ (b', db', err) →
    db' !! bytes_of "users" = (∅ : bolt.DB) !! bytes_of "users" ∧
    (∀ key, Get db' "users" key = Get ∅ "users" key) ∧
    List db' "users" = List ∅ "users".
Proof.
  assert (range_order faulty (map_to_list (ops faulty))) as Hord
    by (unfold range_order; reflexivity).
  assert (ops faulty !! "users" = None) as Hother by reflexivity.
  split; [exact Hord|]. split; [exact Hother|].
  exact (runs_leave_other_buckets "users" faulty _ ∅ Hord Hother).
Defined.
